(** * image_database: fingerprints, comparison and grouping

    A shallow embedding of [model/image_util.py] and of the two grouping
    queries of [model/database.py], followed by the properties of the
    natural-language specification that were checked against them. *)

From Stdlib Require Import List String Ascii Bool Arith ZArith NArith QArith Lia.
From Stdlib Require Import Strings.Byte.
From Stdlib Require HexString.
Import ListNotations.

Local Close Scope Q_scope.
Local Open Scope nat_scope.
Local Open Scope string_scope.
Local Open Scope list_scope.

(** ** Python values used by the code *)

(** Truthiness of an optional string, as tested by [if not x]: both [None]
    and the empty string are falsy. *)
Definition truthy (x : option string) : bool :=
  match x with
  | None => false
  | Some s => negb (String.eqb s "")
  end.

(** [==] on values that are either [None] or a [str]. *)
Definition key_eqb (a b : option string) : bool :=
  match a, b with
  | None, None => true
  | Some x, Some y => String.eqb x y
  | _, _ => false
  end.

(** [==] on the result of indexing a string. *)
Definition char_eqb (a b : option ascii) : bool :=
  match a, b with
  | None, None => true
  | Some x, Some y => Ascii.eqb x y
  | _, _ => false
  end.

(** The result of [calculate_hamming_distance]: an [int], or
    [float('inf')]. *)
Inductive distance : Type :=
  | Finite (n : nat)
  | Infinity.

(** [d <= threshold] for an integer threshold. *)
Definition distance_le (d : distance) (threshold : Z) : bool :=
  match d with
  | Finite n => (Z.of_nat n <=? threshold)%Z
  | Infinity => false
  end.

(** Errors.  A raised exception is [None]; each [try ... except Exception]
    of the code turns it into the value of its handler. *)
Notation "x <- e ;; k" :=
  (match e with Some x => k | None => None end)
    (at level 61, e at next level, right associativity).

(** [a / b] on integers.  Python computes a binary64 quotient; for the
    operands met here (a sum of 64 intensities in 0..255 divided by 64) the
    quotient is a multiple of 1/64 below 2^8 and is exact, so it is kept as
    a rational.  A zero divisor raises [ZeroDivisionError]. *)
Definition true_div (a b : Z) : option Q :=
  if (b =? 0)%Z then None else Some (inject_Z a / inject_Z b)%Q.

(** [pixel > avg_pixel], an integer against the quotient above. *)
Definition int_gt (pixel : Z) (avg_pixel : Q) : bool :=
  negb (Qle_bool (inject_Z pixel) avg_pixel).

(** [int(s, 2)] on a string of binary digits: the most significant digit
    comes first; the empty string and any other character raise
    [ValueError]. *)
Fixpoint int_base2_from (acc : N) (s : string) : option N :=
  match s with
  | EmptyString => Some acc
  | String c s' =>
      if Ascii.eqb c "0" then int_base2_from (2 * acc)%N s'
      else if Ascii.eqb c "1" then int_base2_from (2 * acc + 1)%N s'
      else None
  end.

Definition int_base2 (s : string) : option N :=
  match s with
  | EmptyString => None
  | _ => int_base2_from 0%N s
  end.

(** [f"{n:016x}"] for a non-negative [n]: the lowercase hexadecimal digits
    of [n], padded with zeros on the left up to 16 characters. *)
Definition hex_digit (d : N) : ascii :=
  match String.get (N.to_nat d) "0123456789abcdef" with
  | Some c => c
  | None => "?"%char
  end.

Fixpoint hex_digits_from (fuel : nat) (n : N) (acc : string) : string :=
  match fuel with
  | O => acc
  | S fuel' =>
      let acc' := String (hex_digit (n mod 16)%N) acc in
      if (n / 16 =? 0)%N then acc' else hex_digits_from fuel' (n / 16)%N acc'
  end.

Definition format_x (n : N) : string :=
  hex_digits_from (S (N.to_nat (N.log2 n))) n "".

Fixpoint zeros (k : nat) : string :=
  match k with
  | O => ""
  | S k' => String "0" (zeros k')
  end.

Definition format_016x (n : N) : string :=
  let digits := format_x n in
  String.append (zeros (16 - String.length digits)) digits.

(** [data.startswith(prefix)] and [needle in data] on bytes. *)
Fixpoint startswith (data prefix : list byte) {struct prefix} : bool :=
  match prefix, data with
  | [], _ => true
  | _ :: _, [] => false
  | p :: prefix', d :: data' => Byte.eqb d p && startswith data' prefix'
  end.

Fixpoint bytes_in (needle data : list byte) : bool :=
  startswith data needle ||
  match data with
  | [] => false
  | _ :: data' => bytes_in needle data'
  end.

(** ** The libraries the code calls *)

(** Pillow, as far as [image_util.py] uses it.  An operation that raises
    returns [None].  [Image_resize] is [resize(size, Resampling.LANCZOS)];
    [Image_getdata] is [list(img.getdata())] on a single-band image;
    [Image_save_png] is the content written by [save(buf, format='PNG')]. *)
Class Pillow : Type := {
  Image : Type;
  Image_open : string -> option Image;
  Image_open_bytes : list byte -> option Image;
  Image_mode : Image -> string;
  Image_convert : Image -> string -> option Image;
  Image_resize : Image -> nat * nat -> option Image;
  Image_getdata : Image -> list Z;
  Image_save_png : Image -> option (list byte)
}.

(** The file system seen through [os.stat] and [open(path, 'rb')]: a path
    that exists has a size, and its content when it can be read. *)
Record fs_entry : Type := {
  st_size : Z;
  read_bytes : option (list byte)
}.

Definition filesystem : Type := string -> option fs_entry.

(** ** model/image_util.py *)

Module ImageUtil.

(** The dictionary returned by [calculate_image_hashes]. *)
Record image_hashes : Type := {
  hashes_image_hash : option string;
  hashes_perceptual_hash : option string;
  hashes_success : bool
}.

(** The dictionary returned by [get_file_info]. *)
Record file_info : Type := {
  info_file_size : option Z;
  info_mime_type : option string
}.

Section Hashing.

Context {PIL : Pillow}.

(** [hashlib.sha256(data).hexdigest()]. *)
Variable sha256_hexdigest : list byte -> string.

(** The accepted kinds of [image_input]; [of_other] is any other value. *)
Inductive image_input : Type :=
  | of_str (file_path : string)
  | of_Image (img : Image)
  | of_bytes (data : list byte)
  | of_BytesIO (data : list byte)
  | of_other.

(** Lines 20-46.  [Image.open] rewinds the stream it is given. *)
Definition _load_image_from_input (image_input : image_input) : option Image :=
  match image_input with
  | of_str file_path => Image_open file_path
  | of_Image img => Some img
  | of_bytes data => Image_open_bytes data
  | of_BytesIO data => Image_open_bytes data
  | of_other => None
  end.

(** Lines 48-65. *)
Definition _prepare_image_for_hash
    (img : Image) (target_size : nat * nat) (mode : string) : option Image :=
  img <- (if negb (String.eqb (Image_mode img) mode)
          then Image_convert img mode else Some img) ;;
  Image_resize img target_size.

(** Lines 67-84. *)
Definition calculate_image_hash (image_input : image_input) : option string :=
  img <- _load_image_from_input image_input ;;
  img_processed <- _prepare_image_for_hash img (64, 64) "RGB" ;;
  img_data <- Image_save_png img_processed ;;
  Some (sha256_hexdigest img_data).

(** Lines 92-104: from the pixels of the prepared image to the digits. *)
Definition hash_of_pixels (pixels : list Z) : option string :=
  avg_pixel <- true_div (fold_left Z.add pixels 0%Z)
                        (Z.of_nat (List.length pixels)) ;;
  let hash_bits :=
    map (fun pixel => if int_gt pixel avg_pixel then "1" else "0") pixels in
  let hash_string := String.concat "" hash_bits in
  hash_int <- int_base2 hash_string ;;
  Some (format_016x hash_int).

(** Lines 86-108. *)
Definition calculate_image_perceptual_hash
    (image_input : image_input) : option string :=
  img <- _load_image_from_input image_input ;;
  img_processed <- _prepare_image_for_hash img (8, 8) "L" ;;
  hash_of_pixels (Image_getdata img_processed).

(** Lines 212-220. *)
Definition resize_image (image_input : image_input)
    (target_size : nat * nat) (mode : string) : option Image :=
  img <- _load_image_from_input image_input ;;
  _prepare_image_for_hash img target_size mode.

(** Lines 110-141.  Both callees catch their own exceptions, so the
    handler of this function is never entered. *)
Definition calculate_image_hashes (image_input : image_input) : image_hashes :=
  let image_hash := calculate_image_hash image_input in
  let perceptual_hash := calculate_image_perceptual_hash image_input in
  {| hashes_image_hash := image_hash;
     hashes_perceptual_hash := perceptual_hash;
     hashes_success :=
       match image_hash, perceptual_hash with
       | Some _, Some _ => true
       | _, _ => false
       end |}.

End Hashing.

Section FileInfo.

Variable fs : filesystem.

(** [mimetypes.guess_type(path)[0]]: the type for the extension of the
    name, if it has one that is known. *)
Variable guess_type : string -> option string.

(** Lines 162-184. *)
Definition detect_mime_type_by_content (file_path : string) : option string :=
  entry <- fs file_path ;;
  content <- read_bytes entry ;;
  let header := firstn 32 content in
  if startswith header [xff; xd8; xff] then Some "image/jpeg"
  else if startswith header
            (x89 :: list_byte_of_string "PNG" ++ [x0d; x0a; x1a; x0a])
  then Some "image/png"
  else if startswith header (list_byte_of_string "GIF87a")
          || startswith header (list_byte_of_string "GIF89a")
  then Some "image/gif"
  else if startswith header (list_byte_of_string "RIFF")
          && bytes_in (list_byte_of_string "WEBP") (firstn 12 header)
  then Some "image/webp"
  else if startswith header (list_byte_of_string "BM") then Some "image/bmp"
  else if startswith header [x00; x00; x01; x00] then Some "image/x-icon"
  else Some "application/octet-stream".

(** Lines 143-160. *)
Definition get_file_info (file_path : string) : file_info :=
  match fs file_path with
  | None => {| info_file_size := None; info_mime_type := None |}
  | Some stat =>
      let mime_type := guess_type file_path in
      let mime_type :=
        if negb (truthy mime_type)
        then detect_mime_type_by_content file_path
        else mime_type in
      {| info_file_size := Some (st_size stat); info_mime_type := mime_type |}
  end.

End FileInfo.

Section FileHash.

Variable fs : filesystem.
Variable sha256_hexdigest : list byte -> string.

(** [for chunk in iter(lambda: f.read(size), b""): h.update(chunk)].  The
    open file is the content not yet read; the hash object is the bytes fed
    to it so far, [update] appending to them.  Each round with a non-empty
    chunk shortens what is left, so [fuel] above the length of the content
    is never used up. *)
Fixpoint update_by_chunks (fuel size : nat) (f hash_sha256 : list byte)
  : option (list byte) :=
  match fuel with
  | O => None
  | S fuel' =>
      match firstn size f with
      | [] => Some hash_sha256
      | chunk => update_by_chunks fuel' size (skipn size f) (hash_sha256 ++ chunk)
      end
  end.

(** Lines 8-18. *)
Definition calculate_file_hash (file_path : string) : option string :=
  entry <- fs file_path ;;
  content <- read_bytes entry ;;
  hash_sha256 <- update_by_chunks (S (List.length content)) 4096 content [] ;;
  Some (sha256_hexdigest hash_sha256).

End FileHash.

(** [calculate_hamming_distance(hash1, hash2)], lines 186-196.  The loop
    runs over [range(len(hash1))] and compares [hash1[i]] with [hash2[i]];
    both indexings are in range because the lengths were found equal. *)
Definition calculate_hamming_distance (hash1 hash2 : string) : distance :=
  if negb (String.length hash1 =? String.length hash2)%nat then Infinity
  else
    Finite
      (fold_left
         (fun distance i =>
            if negb (char_eqb (String.get i hash1) (String.get i hash2))
            then distance + 1
            else distance)
         (seq 0 (String.length hash1)) 0).

End ImageUtil.

Import ImageUtil.

(** ** model/database.py *)

Module Database.

(** A row of [images_metadata] (model/metadata.py), with the columns the
    queries read.  [image_hash] is declared [nullable=False]; the value is
    kept optional here because the queries do not rely on it. *)
Record Images_metadata : Type := {
  id : Z;
  image_id : Z;
  file_size : option Z;
  mime_type : option string;
  image_hash : option string;
  perceptual_hash : option string
}.

(** The dictionaries appended to [duplicates] and to [similar_groups]. *)
Record duplicate_group : Type := {
  dup_image_hash : option string;
  dup_count : nat;
  dup_images : list Images_metadata
}.

Record similar_group : Type := {
  sim_threshold : Z;
  sim_count : nat;
  sim_images : list Images_metadata
}.

(** A [dict] from fingerprints to lists of rows.  Python dictionaries keep
    their keys in insertion order, and [items()] follows it. *)
Definition hash_dict : Type := list (option string * list Images_metadata).

(** [key in d]. *)
Definition dict_mem (key : option string) (d : hash_dict) : bool :=
  existsb (fun kv => key_eqb (fst kv) key) d.

(** [d[key].append(meta)], for a key of [d]. *)
Definition dict_append (key : option string) (meta : Images_metadata)
    (d : hash_dict) : hash_dict :=
  map (fun kv => if key_eqb (fst kv) key then (fst kv, snd kv ++ [meta]) else kv) d.

(** [d[key] = metas], for a key that is not in [d]. *)
Definition dict_set_new (key : option string) (metas : list Images_metadata)
    (d : hash_dict) : hash_dict :=
  d ++ [(key, metas)].

(** Lines 99-127, on the rows returned by the query. *)
Definition find_duplicate_images
    (metadata_list : list Images_metadata) : list duplicate_group :=
  let hash_groups :=
    fold_left
      (fun hash_groups meta =>
         if dict_mem (image_hash meta) hash_groups
         then dict_append (image_hash meta) meta hash_groups
         else dict_set_new (image_hash meta) [meta] hash_groups)
      metadata_list [] in
  fold_left
    (fun duplicates '(image_hash, metas) =>
       if (1 <? List.length metas)%nat
       then duplicates ++ [{| dup_image_hash := image_hash;
                              dup_count := List.length metas;
                              dup_images := metas |}]
       else duplicates)
    hash_groups [].

(** [enumerate(l, start)]. *)
Fixpoint enumerate {A : Type} (l : list A) (start : nat) : list (nat * A) :=
  match l with
  | [] => []
  | x :: l' => (start, x) :: enumerate l' (S start)
  end.

(** The string held by a truthy optional string. *)
Definition str_of (x : option string) : string :=
  match x with
  | Some s => s
  | None => ""
  end.

(** Lines 130-162, on the rows returned by the query. *)
Definition find_similar_images
    (metadata_list : list Images_metadata) (threshold : Z) : list similar_group :=
  fold_left
    (fun similar_groups '(i, meta1) =>
       if negb (truthy (perceptual_hash meta1)) then similar_groups
       else
         let similar_images :=
           fold_left
             (fun similar_images '(j, meta2) =>
                if negb (truthy (perceptual_hash meta2)) then similar_images
                else
                  let hamming_distance :=
                    calculate_hamming_distance
                      (str_of (perceptual_hash meta1))
                      (str_of (perceptual_hash meta2)) in
                  if distance_le hamming_distance threshold
                  then similar_images ++ [meta2]
                  else similar_images)
             (enumerate (skipn (i + 1) metadata_list) (i + 1))
             [meta1] in
         if (1 <? List.length similar_images)%nat
         then similar_groups ++ [{| sim_threshold := threshold;
                                    sim_count := List.length similar_images;
                                    sim_images := similar_images |}]
         else similar_groups)
    (enumerate metadata_list 0) [].




Section Inputs.

Context {PIL : Pillow}.
Variable fs : filesystem.
Variable guess_type : string -> option string.

(** Lines 36-45.  [os.path.exists] holds when [os.stat] succeeds. *)
Definition _get_file_info_for_input (image_input : image_input) : file_info :=
  match image_input with
  | of_str path =>
      match fs path with
      | Some _ => get_file_info fs guess_type path
      | None => {| info_file_size := None; info_mime_type := Some "image/jpeg" |}
      end
  | _ => {| info_file_size := None; info_mime_type := Some "image/jpeg" |}
  end.

End Inputs.

End Database.

Import Database.

(** ** The specification's wording, as definitions *)

Module Spec.

(** An 8x8 grayscale grid: 64 intensities in scan order, each in 0..255. *)
Definition gray_grid (pixels : list Z) : Prop :=
  List.length pixels = 64 /\ Forall (fun v => (0 <= v <= 255)%Z) pixels.

(** The arithmetic mean of the 64 intensities. *)
Definition mean64 (pixels : list Z) : Q :=
  (inject_Z (fold_right Z.add 0%Z pixels) / 64)%Q.

(** One bit per pixel, in scan order: 1 when the pixel is strictly greater
    than the mean. *)
Definition threshold_bits (pixels : list Z) : list bool :=
  map (fun v => if Qlt_le_dec (mean64 pixels) (inject_Z v) then true else false)
      pixels.

(** Packing, most significant bit first: the first bit of [k+1] bits
    weighs [2^k]. *)
Fixpoint pack_msb_first (bits : list bool) : N :=
  match bits with
  | [] => 0%N
  | b :: bits' =>
      ((if b then 2 ^ N.of_nat (List.length bits') else 0) + pack_msb_first bits')%N
  end.

(** Sixteen lowercase hexadecimal characters: the nibbles of a 64-bit
    integer from the most significant one down. *)
Definition nibble (n : N) (k : nat) : N :=
  N.land (N.shiftr n (4 * N.of_nat k)) 15.

Definition hex16 (n : N) : string :=
  string_of_list_ascii (map (fun k => hex_digit (nibble n k)) (rev (seq 0 16))).

Definition perceptual_hash_spec (pixels : list Z) : string :=
  hex16 (pack_msb_first (threshold_bits pixels)).

(** The magic-number table of the sniffer. *)
Definition begins_with (signature data : list byte) : Prop :=
  exists rest, data = signature ++ rest.

Definition occurs_in (signature data : list byte) : Prop :=
  exists before after, data = before ++ signature ++ after.

Inductive magic : list byte -> string -> Prop :=
  | magic_jpeg h :
      begins_with [xff; xd8; xff] h -> magic h "image/jpeg"
  | magic_png h :
      begins_with [x89; x50; x4e; x47; x0d; x0a; x1a; x0a] h ->
      magic h "image/png"
  | magic_gif87a h :
      begins_with (list_byte_of_string "GIF87a") h -> magic h "image/gif"
  | magic_gif89a h :
      begins_with (list_byte_of_string "GIF89a") h -> magic h "image/gif"
  | magic_webp h :
      begins_with (list_byte_of_string "RIFF") h ->
      occurs_in (list_byte_of_string "WEBP") (firstn 12 h) ->
      magic h "image/webp"
  | magic_bmp h :
      begins_with (list_byte_of_string "BM") h -> magic h "image/bmp"
  | magic_ico h :
      begins_with [x00; x00; x01; x00] h -> magic h "image/x-icon".

(** Distinct fingerprints, in the order in which they are first seen. *)
Fixpoint first_seen (keys : list (option string)) : list (option string) :=
  match keys with
  | [] => []
  | k :: keys' => k :: filter (fun k' => negb (key_eqb k' k)) (first_seen keys')
  end.

(** The rows carrying a given fingerprint, in input order. *)
Definition bucket (h : option string) (l : list Images_metadata)
  : list Images_metadata :=
  filter (fun m => key_eqb (image_hash m) h) l.

(** One group per fingerprint shared by at least two rows. *)
Definition duplicate_groups (l : list Images_metadata) : list duplicate_group :=
  flat_map
    (fun h =>
       if (2 <=? List.length (bucket h l))%nat
       then [{| dup_image_hash := h;
                dup_count := List.length (bucket h l);
                dup_images := bucket h l |}]
       else [])
    (first_seen (map image_hash l)).

(** The distance between the fingerprints of two rows. *)
Definition row_distance (a b : Images_metadata) : distance :=
  calculate_hamming_distance (str_of (perceptual_hash a)) (str_of (perceptual_hash b)).

(** Anchor scan, by index: the members of the anchor at index [i] are the
    rows at the later indices [j > i] within the threshold of row [i]. *)
Definition members_of (l : list Images_metadata) (threshold : Z) (i : nat)
  : list nat :=
  filter
    (fun j =>
       match nth_error l i, nth_error l j with
       | Some a, Some b => distance_le (row_distance a b) threshold
       | _, _ => false
       end)
    (seq (i + 1) (List.length l - (i + 1))).

Definition rows_at (l : list Images_metadata) (indices : list nat)
  : list Images_metadata :=
  flat_map (fun j => match nth_error l j with Some m => [m] | None => [] end)
           indices.

Definition anchor_scan (l : list Images_metadata) (threshold : Z)
  : list similar_group :=
  flat_map
    (fun i =>
       match members_of l threshold i with
       | [] => []
       | js =>
           let group := rows_at l (i :: js) in
           [{| sim_threshold := threshold;
               sim_count := List.length group;
               sim_images := group |}]
       end)
    (seq 0 (List.length l)).

End Spec.

Import Spec.

(** ** Auxiliary definitions *)

(** Number of positions at which two strings differ. *)
Definition mismatches (a b : string) : nat :=
  List.length
    (filter (fun i => negb (char_eqb (String.get i a) (String.get i b)))
       (seq 0 (String.length a))).

(** Exactly [k] hexadecimal digits of [n], least significant one last, in
    front of [acc]. *)
Fixpoint fixed_hex (k : nat) (n : N) (acc : string) : string :=
  match k with
  | O => acc
  | S k' => fixed_hex k' (n / 16)%N (String (hex_digit (n mod 16)%N) acc)
  end.

(** The character written for a bit. *)
Definition bit_str (b : bool) : string := if b then "1" else "0".

(** The bits of the perceptual hasher in integers: a pixel is above the
    mean when the number of pixels times its value exceeds their sum. *)
Definition above_mean (pixels : list Z) : list bool :=
  map (fun pixel =>
         (fold_left Z.add pixels 0 <? Z.of_nat (List.length pixels) * pixel)%Z)
      pixels.

(** The lowercase hexadecimal alphabet. *)
Definition hex_alphabet : list ascii := list_ascii_of_string "0123456789abcdef".

(** The hexadecimal digits of a bit string, four bits at a time from the
    left, and the number of positions at which two bit strings differ. *)
Definition nibble_value (b3 b2 b1 b0 : bool) : N :=
  (8 * N.b2n b3 + 4 * N.b2n b2 + 2 * N.b2n b1 + N.b2n b0)%N.

Fixpoint hex_of_bits (bits : list bool) : string :=
  match bits with
  | b3 :: b2 :: b1 :: b0 :: rest =>
      String (hex_digit (nibble_value b3 b2 b1 b0)) (hex_of_bits rest)
  | _ => ""
  end.

Fixpoint bit_differences (a b : list bool) : nat :=
  match a, b with
  | x :: a', y :: b' => (if Bool.eqb x y then 0 else 1) + bit_differences a' b'
  | _, _ => 0
  end.

(** The digits [k-1 .. 0] of a number. *)
Definition hex_digits_of (k : nat) (n : N) : string :=
  string_of_list_ascii (map (fun j => hex_digit (nibble n j)) (rev (seq 0 k))).


(** The test of the inner loop of the similarity scan on a later row. *)
Definition similar_to (meta1 : Images_metadata) (threshold : Z)
    (meta2 : Images_metadata) : bool :=
  truthy (perceptual_hash meta2)
  && distance_le (row_distance meta1 meta2) threshold.

(** What one round of the outer loop appends, for the row [meta1] at
    index [i]. *)
Definition star (l : list Images_metadata) (threshold : Z)
    (i : nat) (meta1 : Images_metadata) : list similar_group :=
  if negb (truthy (perceptual_hash meta1)) then []
  else
    let similar_images :=
      meta1 :: filter (similar_to meta1 threshold) (skipn (i + 1) l) in
    if (1 <? List.length similar_images)%nat
    then [{| sim_threshold := threshold;
             sim_count := List.length similar_images;
             sim_images := similar_images |}]
    else [].

(** ** A stand-in for the libraries

    Enough of an imaging library to run the code on concrete inputs: images
    are flat rasters held in memory, no file and no byte string is decoded,
    and resampling picks the nearest pixel.  As in Pillow, an image in mode
    "LAB" converts to "RGB" (through a colour profile) and to no other
    mode, [convert('L')] raising [ValueError]; the other conversions used
    here succeed. *)

Record raster : Type := {
  raster_mode : string;
  raster_size : nat * nat;
  raster_pixels : list Z
}.

Definition nearest (pixels : list Z) (size : nat * nat) : list Z :=
  let n := fst size * snd size in
  map (fun k => nth (k * List.length pixels / n) pixels 0%Z) (seq 0 n).

Definition byte_of_Z (v : Z) : byte :=
  match Byte.of_N (Z.to_N (v mod 256)) with
  | Some b => b
  | None => x00
  end.

Definition raster_pillow : Pillow := {|
  Image := raster;
  Image_open := fun _ => None;
  Image_open_bytes := fun _ => None;
  Image_mode := raster_mode;
  Image_convert := fun img mode =>
    if String.eqb (raster_mode img) "LAB" && negb (String.eqb mode "RGB")
    then None
    else Some {| raster_mode := mode;
                 raster_size := raster_size img;
                 raster_pixels := raster_pixels img |};
  Image_resize := fun img size =>
    Some {| raster_mode := raster_mode img;
            raster_size := size;
            raster_pixels := nearest (raster_pixels img) size |};
  Image_getdata := raster_pixels;
  Image_save_png := fun img => Some (map byte_of_Z (raster_pixels img))
|}.

(** A stand-in for the digest: not SHA-256, only a string of 64 lowercase
    hexadecimal characters that depends on the data. *)
Definition length_digest (data : list byte) : string :=
  String.append (zeros 48) (format_016x (N.of_nat (List.length data))).

(** A stand-in for [mimetypes]: three extensions. *)
Definition ends_with (suffix s : string) : bool :=
  let n := String.length s - String.length suffix in
  String.eqb (String.substring n (String.length suffix) s) suffix
  && (String.length suffix <=? String.length s)%nat.

Definition guess_by_suffix (file_path : string) : option string :=
  if ends_with ".jpg" file_path then Some "image/jpeg"
  else if ends_with ".png" file_path then Some "image/png"
  else if ends_with ".gif" file_path then Some "image/gif"
  else None.

(** ** Fixtures *)

Definition h0 : string := "0000000000000000".
Definition h1 : string := "0000000000000001".
Definition h2 : string := "0000000000000003".

(** A left half darker than the right half, a uniform image and an image
    in the Lab colour space. *)
Definition half_pixels : list Z :=
  List.concat (repeat ([10; 10; 10; 10; 200; 200; 200; 200]%Z) 8).

Definition half_image : raster :=
  {| raster_mode := "L"; raster_size := (8, 8); raster_pixels := half_pixels |}.

Definition flat_image : raster :=
  {| raster_mode := "L"; raster_size := (8, 8); raster_pixels := repeat 7%Z 64 |}.

Definition lab_image : raster :=
  {| raster_mode := "LAB"; raster_size := (8, 8); raster_pixels := half_pixels |}.

(** A directory with one file without extension that holds a JPEG header,
    and one named file. *)
Definition sample_fs : filesystem :=
  fun file_path =>
    if String.eqb file_path "upload_0001" then
      Some {| st_size := 5;
              read_bytes := Some [xff; xd8; xff; xe0; x00] |}
    else if String.eqb file_path "cat.png" then
      Some {| st_size := 2; read_bytes := Some [x00; x01] |}
    else None.

(** Two bitmap files that differ in their thirteenth byte only. *)
Definition bmp_head : list byte := [x42; x4d] ++ repeat x00 10.

Definition two_bitmaps : filesystem :=
  fun file_path =>
    if String.eqb file_path "a" then
      Some {| st_size := 13; read_bytes := Some (bmp_head ++ [x01]) |}
    else if String.eqb file_path "b" then
      Some {| st_size := 13; read_bytes := Some (bmp_head ++ [x02]) |}
    else None.

Definition row (n : Z) (ih ph : option string) : Images_metadata :=
  {| id := n; image_id := n; file_size := None; mime_type := None;
     image_hash := ih; perceptual_hash := ph |}.

Definition a64 : string := String.concat "" (repeat "a" 64).
Definition b64 : string := String.concat "" (repeat "b" 64).

(** Three rows sharing one content fingerprint and one row alone. *)
Definition catalog_abc : list Images_metadata :=
  [row 1 (Some a64) None; row 2 (Some a64) None;
   row 3 (Some b64) None; row 4 (Some a64) None].

(** The three rows of the similarity scenario. *)
Definition catalog_h : list Images_metadata :=
  [row 1 (Some a64) (Some h0); row 2 (Some b64) (Some h1);
   row 3 (Some "c") (Some h2)].


(** ** The Hamming comparator *)

Section Counting.

Variable A : Type.
Variable p : A -> bool.

(** A loop that bumps a counter on the elements satisfying [p] counts
    them. *)
Lemma fold_count (l : list A) (d : nat) :
  fold_left (fun distance i => if p i then distance + 1 else distance) l d
  = d + List.length (filter p l).
Proof.
  revert d; induction l as [|a l IH]; intros d; simpl.
  - lia.
  - rewrite IH. destruct (p a); simpl; lia.
Qed.

End Counting.

Lemma char_eqb_refl (a : option ascii) : char_eqb a a = true.
Proof. destruct a; simpl; [apply Ascii.eqb_refl | reflexivity]. Qed.

Lemma char_eqb_sym (a b : option ascii) : char_eqb a b = char_eqb b a.
Proof. destruct a, b; simpl; try reflexivity. apply Ascii.eqb_sym. Qed.

Lemma hamming_equal_length (a b : string) :
  String.length a = String.length b ->
  calculate_hamming_distance a b = Finite (mismatches a b).
Proof.
  intros H. unfold calculate_hamming_distance, mismatches.
  rewrite H, Nat.eqb_refl. simpl. f_equal.
  rewrite <- H.
  apply (fold_count nat
           (fun i => negb (char_eqb (String.get i a) (String.get i b)))).
Qed.

Lemma hamming_different_length (a b : string) :
  String.length a <> String.length b ->
  calculate_hamming_distance a b = Infinity.
Proof.
  intros H. unfold calculate_hamming_distance.
  apply Nat.eqb_neq in H. rewrite H. reflexivity.
Qed.

Lemma mismatches_sym (a b : string) :
  String.length a = String.length b -> mismatches a b = mismatches b a.
Proof.
  intros H. unfold mismatches. rewrite H. f_equal.
  apply filter_ext. intros i. now rewrite char_eqb_sym.
Qed.

Lemma mismatches_refl (a : string) : mismatches a a = 0.
Proof.
  unfold mismatches.
  induction (seq 0 (String.length a)) as [|i l IH]; simpl.
  - reflexivity.
  - now rewrite char_eqb_refl.
Qed.

Lemma mismatches_bound (a b : string) : mismatches a b <= String.length a.
Proof.
  unfold mismatches.
  eapply Nat.le_trans; [apply filter_length_le|].
  now rewrite length_seq.
Qed.

(** C1 (as the code behaves): the comparator counts differing characters,
    so the three fixtures are pairwise at distance 1; in particular h0 and
    h2, which differ in the single character 0 / 3, are at distance 1. *)
Theorem C1_fixture_distances :
  calculate_hamming_distance h0 h1 = Finite 1 /\
  calculate_hamming_distance h0 h2 = Finite 1 /\
  calculate_hamming_distance h1 h2 = Finite 1.
Proof. repeat split; reflexivity. Qed.

(** C1 as stated fails: the distance between h0 and h2 is not 2. *)
Lemma C1_counterexample :
  ~ (calculate_hamming_distance h0 h1 = Finite 1 /\
     calculate_hamming_distance h0 h2 = Finite 2 /\
     calculate_hamming_distance h1 h2 = Finite 1).
Proof.
  intros (_ & H & _). vm_compute in H. discriminate H.
Qed.

(** C6: fingerprints of different lengths compare to the sentinel
    [float('inf')]; this is a returned value, the function being total.
    In particular this is the result on "0000" and "00000". *)
Theorem C6_incomparable_sentinel :
  (forall a b : string,
      String.length a <> String.length b ->
      calculate_hamming_distance a b = Infinity) /\
  calculate_hamming_distance "0000" "00000" = Infinity.
Proof.
  split.
  - exact hamming_different_length.
  - reflexivity.
Qed.

Lemma C6_witness :
  String.length "ab" <> String.length "abc" /\
  calculate_hamming_distance "ab" "abc" = Infinity.
Proof.
  split.
  - simpl. lia.
  - apply (proj1 C6_incomparable_sentinel "ab" "abc"). simpl. lia.
Defined.

(** C7: on fingerprints of equal length the distance is symmetric, is zero
    between a fingerprint and itself, and is a number that does not exceed
    the number of characters compared. *)
Theorem C7_distance_symmetry_bounds (a b : string) :
  String.length a = String.length b ->
  calculate_hamming_distance a b = calculate_hamming_distance b a /\
  calculate_hamming_distance a a = Finite 0 /\
  exists d, calculate_hamming_distance a b = Finite d /\ d <= String.length a.
Proof.
  intros H. repeat split.
  - rewrite (hamming_equal_length a b H).
    rewrite (hamming_equal_length b a (eq_sym H)).
    now rewrite mismatches_sym.
  - rewrite (hamming_equal_length a a eq_refl). now rewrite mismatches_refl.
  - exists (mismatches a b). split.
    + exact (hamming_equal_length a b H).
    + apply mismatches_bound.
Qed.

Lemma C7_witness :
  String.length h1 = String.length h2 /\
  calculate_hamming_distance h1 h2 = calculate_hamming_distance h2 h1 /\
  calculate_hamming_distance h1 h1 = Finite 0 /\
  exists d, calculate_hamming_distance h1 h2 = Finite d /\ d <= String.length h1.
Proof.
  split.
  - reflexivity.
  - apply (C7_distance_symmetry_bounds h1 h2). reflexivity.
Defined.

(** ** The perceptual hasher *)

(** *** Hexadecimal formatting *)

Lemma fixed_hex_zero (k : nat) (acc : string) :
  fixed_hex k 0 acc = String.append (zeros k) acc.
Proof.
  revert acc; induction k as [|k IH]; intros acc; simpl.
  - reflexivity.
  - rewrite IH. clear IH. induction k as [|k IH]; simpl.
    + reflexivity.
    + now rewrite IH.
Qed.

Lemma append_assoc (a b c : string) :
  String.append (String.append a b) c = String.append a (String.append b c).
Proof. induction a as [|x a IH]; simpl; [reflexivity | now rewrite IH]. Qed.

Lemma append_length (a b : string) :
  String.length (String.append a b) = String.length a + String.length b.
Proof. induction a as [|x a IH]; simpl; [reflexivity | now rewrite IH]. Qed.

Lemma pow16_step (k : nat) : (16 ^ N.of_nat (S k) = 16 * 16 ^ N.of_nat k)%N.
Proof. rewrite Nat2N.inj_succ. apply N.pow_succ_r'. Qed.

Lemma div16_lt (n : N) (k : nat) :
  (n < 16 ^ N.of_nat (S k))%N -> (n / 16 < 16 ^ N.of_nat k)%N.
Proof.
  intros H. rewrite pow16_step in H.
  apply N.Div0.div_lt_upper_bound. exact H.
Qed.

Lemma div16_nonzero_fuel (n : N) (k : nat) :
  (n < 16 ^ N.of_nat (S k))%N -> (n / 16)%N <> 0%N -> 0 < k.
Proof.
  intros H Hnz. destruct k as [|k]; [|lia].
  exfalso. apply Hnz. apply N.div_small. simpl in H. exact H.
Qed.

(** The digit loop writes the digits of [n] without leading zeros; padded
    with zeros they are the [k] digits of [n]. *)
Lemma hex_digits_from_fixed (k : nat) :
  forall (fuel : nat) (n : N) (acc : string),
    0 < k -> 0 < fuel ->
    (n < 16 ^ N.of_nat k)%N -> (n < 16 ^ N.of_nat fuel)%N ->
    exists digits,
      hex_digits_from fuel n acc = String.append digits acc /\
      String.length digits <= k /\
      fixed_hex k n acc
      = String.append (zeros (k - String.length digits)) (String.append digits acc).
Proof.
  induction k as [|k IH]; intros fuel n acc Hk Hfuel Hn Hnf; [lia|].
  destruct fuel as [|fuel]; [lia|].
  simpl hex_digits_from. simpl fixed_hex.
  destruct (N.eqb_spec (n / 16) 0) as [Hz|Hnz].
  - exists (String (hex_digit (n mod 16)) "").
    repeat split; simpl; try lia.
    rewrite Hz, fixed_hex_zero. now rewrite Nat.sub_0_r.
  - pose proof (div16_nonzero_fuel n k Hn Hnz) as Hk'.
    pose proof (div16_nonzero_fuel n fuel Hnf Hnz) as Hfuel'.
    destruct (IH fuel (n / 16)%N (String (hex_digit (n mod 16)) acc)
                Hk' Hfuel' (div16_lt n k Hn) (div16_lt n fuel Hnf))
      as (digits & Hloop & Hlen & Hfixed).
    exists (String.append digits (String (hex_digit (n mod 16)) "")).
    repeat split.
    + rewrite Hloop, append_assoc. reflexivity.
    + rewrite append_length. simpl. lia.
    + rewrite Hfixed, append_length, append_assoc. simpl.
      replace (k - (String.length digits + 1 - 1)) with (k - String.length digits)
        by lia.
      destruct (String.length digits + 1) as [|m] eqn:E; [lia|].
      replace (k - m) with (k - String.length digits) by lia.
      reflexivity.
Qed.

Lemma lt_pow16_log2 (n : N) : (n < 16 ^ N.of_nat (S (N.to_nat (N.log2 n))))%N.
Proof.
  rewrite Nat2N.inj_succ, N2Nat.id.
  destruct n as [|p].
  - reflexivity.
  - destruct (N.log2_spec (N.pos p)) as [_ H]; [reflexivity|].
    eapply N.lt_le_trans; [exact H|].
    apply N.pow_le_mono_l. lia.
Qed.

Lemma format_016x_fixed (n : N) :
  (n < 2 ^ 64)%N -> format_016x n = fixed_hex 16 n "".
Proof.
  intros H. unfold format_016x, format_x.
  destruct (hex_digits_from_fixed 16 (S (N.to_nat (N.log2 n))) n "")
    as (digits & Hloop & Hlen & Hfixed).
  - lia.
  - lia.
  - exact H.
  - apply lt_pow16_log2.
  - rewrite Hfixed, Hloop.
    assert (E : String.append digits "" = digits).
    { clear. induction digits as [|c d IH]; simpl; [reflexivity | now rewrite IH]. }
    now rewrite !E.
Qed.

Lemma nibble_div (n : N) (k : nat) :
  nibble n k = ((n / 16 ^ N.of_nat k) mod 16)%N.
Proof.
  unfold nibble.
  change 15%N with (N.ones 4).
  rewrite N.land_ones, N.shiftr_div_pow2, N.pow_mul_r.
  reflexivity.
Qed.

Lemma nibble_succ (n : N) (k : nat) : nibble n (S k) = nibble (n / 16) k.
Proof.
  rewrite !nibble_div, pow16_step.
  rewrite N.Div0.div_div. reflexivity.
Qed.

Lemma nibble_zero (n : N) : nibble n 0 = (n mod 16)%N.
Proof. rewrite nibble_div. simpl. now rewrite N.div_1_r. Qed.

Lemma string_of_list_app (a b : list ascii) :
  string_of_list_ascii (a ++ b)
  = String.append (string_of_list_ascii a) (string_of_list_ascii b).
Proof. induction a as [|x a IH]; simpl; [reflexivity | now rewrite IH]. Qed.

(** The [k] digits written by division are the nibbles [k-1 .. 0]. *)
Lemma fixed_hex_nibbles (k : nat) :
  forall (n : N) (acc : string),
    fixed_hex k n acc
    = String.append
        (string_of_list_ascii
           (map (fun j => hex_digit (nibble n j)) (rev (seq 0 k))))
        acc.
Proof.
  induction k as [|k IH]; intros n acc.
  - reflexivity.
  - simpl fixed_hex. rewrite IH.
    rewrite <- cons_seq, <- seq_shift. simpl rev.
    rewrite map_app, string_of_list_app, append_assoc. simpl.
    rewrite nibble_zero. f_equal.
    rewrite <- map_rev, map_map.
    f_equal. apply map_ext. intros j. now rewrite nibble_succ.
Qed.

Lemma format_016x_hex16 (n : N) : (n < 2 ^ 64)%N -> format_016x n = hex16 n.
Proof.
  intros H. rewrite (format_016x_fixed n H), fixed_hex_nibbles.
  unfold hex16.
  generalize (string_of_list_ascii
                (map (fun j => hex_digit (nibble n j)) (rev (seq 0 16)))).
  intros d. induction d as [|c d IH]; simpl; [reflexivity | now rewrite IH].
Qed.

(** *** Bits and packing *)

Lemma concat_bit_str (b : bool) (bits : list bool) :
  String.concat "" (map bit_str (b :: bits))
  = String.append (bit_str b) (String.concat "" (map bit_str bits)).
Proof. destruct bits as [|b' bits]; destruct b; reflexivity. Qed.

Lemma int_base2_from_zero (acc : N) (s : string) :
  int_base2_from acc (String "0" s) = int_base2_from (2 * acc)%N s.
Proof. reflexivity. Qed.

Lemma int_base2_from_one (acc : N) (s : string) :
  int_base2_from acc (String "1" s) = int_base2_from (2 * acc + 1)%N s.
Proof. reflexivity. Qed.

(** Reading the digits from the left is positional packing. *)
Lemma int_base2_from_pack (bits : list bool) :
  forall acc : N,
    int_base2_from acc (String.concat "" (map bit_str bits))
    = Some (acc * 2 ^ N.of_nat (List.length bits) + pack_msb_first bits)%N.
Proof.
  induction bits as [|b bits IH]; intros acc.
  - simpl. f_equal. lia.
  - rewrite concat_bit_str.
    assert (Hpow : (2 ^ N.of_nat (List.length (b :: bits))
                    = 2 * 2 ^ N.of_nat (List.length bits))%N).
    { simpl List.length. rewrite Nat2N.inj_succ. apply N.pow_succ_r'. }
    rewrite Hpow.
    destruct b; simpl String.append;
      [rewrite int_base2_from_one | rewrite int_base2_from_zero];
      rewrite IH; f_equal; cbn [pack_msb_first]; lia.
Qed.

Lemma int_base2_pack (bits : list bool) :
  bits <> [] ->
  int_base2 (String.concat "" (map bit_str bits)) = Some (pack_msb_first bits).
Proof.
  intros Hne. unfold int_base2.
  pose proof (int_base2_from_pack bits 0) as H.
  rewrite N.mul_0_l, N.add_0_l in H.
  destruct bits as [|b bits]; [contradiction|].
  rewrite concat_bit_str in *.
  destruct b; simpl String.append in *; exact H.
Qed.

Lemma pack_msb_first_bound (bits : list bool) :
  (pack_msb_first bits < 2 ^ N.of_nat (List.length bits))%N.
Proof.
  induction bits as [|b bits IH].
  - simpl. lia.
  - simpl List.length. rewrite Nat2N.inj_succ, N.pow_succ_r'.
    cbn [pack_msb_first]. destruct b; lia.
Qed.

(** *** Mean and threshold *)

Lemma sum_fold_right (pixels : list Z) :
  fold_left Z.add pixels 0%Z = fold_right Z.add 0%Z pixels.
Proof.
  apply fold_symmetric; intros; lia.
Qed.

(** Comparing with the quotient by 64 is comparing 64 times the pixel with
    the sum. *)
Lemma int_gt_div64 (pixel total : Z) :
  int_gt pixel (inject_Z total / inject_Z 64)%Q = (total <? 64 * pixel)%Z.
Proof.
  unfold int_gt.
  destruct (Z.ltb_spec total (64 * pixel)) as [H|H].
  - apply negb_true_iff. apply not_true_is_false. intros Hle.
    apply Qle_bool_iff in Hle. unfold Qle in Hle. simpl in Hle. lia.
  - apply negb_false_iff. apply Qle_bool_iff. unfold Qle. simpl. lia.
Qed.

Lemma mean64_gt (pixels : list Z) (v : Z) :
  (if Qlt_le_dec (mean64 pixels) (inject_Z v) then true else false)
  = (fold_right Z.add 0%Z pixels <? 64 * v)%Z.
Proof.
  unfold mean64.
  destruct (Qlt_le_dec (inject_Z (fold_right Z.add 0%Z pixels) / 64) (inject_Z v))
    as [H|H];
    unfold Qlt, Qle in H; simpl in H; symmetry.
  - apply Z.ltb_lt. lia.
  - apply Z.ltb_ge. lia.
Qed.

(** The digits computed from a grid of 64 pixels. *)
Lemma hash_of_pixels_spec (pixels : list Z) :
  List.length pixels = 64 ->
  hash_of_pixels pixels = Some (perceptual_hash_spec pixels).
Proof.
  intros Hlen. unfold hash_of_pixels, perceptual_hash_spec.
  rewrite Hlen. unfold true_div. simpl Z.eqb. cbv iota.
  rewrite sum_fold_right.
  assert (Hbits :
    map (fun pixel =>
           if int_gt pixel (inject_Z (fold_right Z.add 0%Z pixels)
                            / inject_Z (Z.of_nat 64))%Q
           then "1" else "0") pixels
    = map bit_str (threshold_bits pixels)).
  { unfold threshold_bits. rewrite map_map. apply map_ext. intros v.
    change (Z.of_nat 64) with 64%Z.
    rewrite int_gt_div64, mean64_gt. reflexivity. }
  rewrite Hbits.
  assert (Hlen' : List.length (threshold_bits pixels) = 64).
  { unfold threshold_bits. now rewrite length_map. }
  rewrite int_base2_pack.
  - f_equal. apply format_016x_hex16.
    pose proof (pack_msb_first_bound (threshold_bits pixels)) as Hb.
    rewrite Hlen' in Hb. exact Hb.
  - intros E. rewrite E in Hlen'. discriminate Hlen'.
Qed.

Lemma sum_repeat (v : Z) (n : nat) :
  fold_right Z.add 0%Z (repeat v n) = (Z.of_nat n * v)%Z.
Proof. induction n as [|n IH]; simpl repeat; simpl fold_right; lia. Qed.

Lemma pack_all_zero (n : nat) : pack_msb_first (repeat false n) = 0%N.
Proof. induction n as [|n IH]; simpl; [reflexivity | exact IH]. Qed.

Lemma threshold_bits_uniform (v : Z) :
  threshold_bits (repeat v 64) = repeat false 64.
Proof.
  unfold threshold_bits. rewrite map_repeat. f_equal.
  rewrite mean64_gt, sum_repeat. apply Z.ltb_ge. lia.
Qed.

Lemma hash_of_pixels_uniform (v : Z) :
  hash_of_pixels (repeat v 64) = Some "0000000000000000".
Proof.
  rewrite hash_of_pixels_spec by apply repeat_length.
  unfold perceptual_hash_spec.
  rewrite threshold_bits_uniform, pack_all_zero. reflexivity.
Qed.

Section PerceptualHasher.

Context {PIL : Pillow}.

Lemma perceptual_hash_of_prepared
    (input : image_input) (img img_processed : Image) :
  _load_image_from_input input = Some img ->
  _prepare_image_for_hash img (8, 8) "L" = Some img_processed ->
  calculate_image_perceptual_hash input
  = hash_of_pixels (Image_getdata img_processed).
Proof.
  intros Hload Hprep. unfold calculate_image_perceptual_hash.
  now rewrite Hload, Hprep.
Qed.

(** C8: when the input decodes and its canonical 8x8 grayscale form is
    the grid [pixels], the perceptual hash is the result of thresholding
    each pixel against the mean of the 64 (bit 1 when strictly greater),
    in scan order, packing the bits most significant first and writing
    the 64-bit value as 16 zero-padded lowercase hexadecimal digits. *)
Theorem C8_perceptual_hash_is_mean_threshold
    (input : image_input) (img img_processed : Image) :
  _load_image_from_input input = Some img ->
  _prepare_image_for_hash img (8, 8) "L" = Some img_processed ->
  gray_grid (Image_getdata img_processed) ->
  calculate_image_perceptual_hash input
  = Some (perceptual_hash_spec (Image_getdata img_processed)).
Proof.
  intros Hload Hprep [Hlen _].
  rewrite (perceptual_hash_of_prepared input img img_processed Hload Hprep).
  now apply hash_of_pixels_spec.
Qed.

(** C10: when the canonical 8x8 grayscale form of the input has all its
    64 pixels equal to one shade, the perceptual hash is sixteen zeros,
    whatever the shade. *)
Theorem C10_uniform_image_hash
    (input : image_input) (img img_processed : Image) (v : Z) :
  _load_image_from_input input = Some img ->
  _prepare_image_for_hash img (8, 8) "L" = Some img_processed ->
  (0 <= v <= 255)%Z ->
  Image_getdata img_processed = repeat v 64 ->
  calculate_image_perceptual_hash input = Some "0000000000000000".
Proof.
  intros Hload Hprep _ Hdata.
  rewrite (perceptual_hash_of_prepared input img img_processed Hload Hprep).
  rewrite Hdata. apply hash_of_pixels_uniform.
Qed.

End PerceptualHasher.

Lemma half_pixels_gray : gray_grid half_pixels.
Proof.
  split.
  - reflexivity.
  - apply Forall_forall. intros v Hv. vm_compute in Hv.
    repeat (destruct Hv as [Hv|Hv]; [subst v; lia|]). contradiction.
Defined.

Lemma C8_witness :
  calculate_image_perceptual_hash (@of_Image raster_pillow half_image)
  = Some "0f0f0f0f0f0f0f0f".
Proof.
  apply (@C8_perceptual_hash_is_mean_threshold raster_pillow
           (@of_Image raster_pillow half_image) half_image half_image).
  - reflexivity.
  - reflexivity.
  - exact half_pixels_gray.
Defined.

Lemma C10_witness :
  calculate_image_perceptual_hash (@of_Image raster_pillow flat_image)
  = Some "0000000000000000".
Proof.
  apply (@C10_uniform_image_hash raster_pillow
           (@of_Image raster_pillow flat_image) flat_image flat_image 7%Z).
  - reflexivity.
  - reflexivity.
  - lia.
  - reflexivity.
Defined.

(** ** The combined entry point *)

Section CombinedEntryPoint.

Context {PIL : Pillow}.
Variable sha256_hexdigest : list byte -> string.

(** C2 (as the code behaves): the result is flagged unsuccessful exactly
    when one of the two computations fails, and it carries the outcome
    of each computation as it is; so an unsuccessful result still holds
    the fingerprint of the computation that succeeded. *)
Theorem C2_hashes_flag_and_fields (input : image_input) :
  let r := calculate_image_hashes sha256_hexdigest input in
  (hashes_success r = false <->
   calculate_image_hash sha256_hexdigest input = None \/
   calculate_image_perceptual_hash input = None) /\
  hashes_image_hash r = calculate_image_hash sha256_hexdigest input /\
  hashes_perceptual_hash r = calculate_image_perceptual_hash input.
Proof.
  unfold calculate_image_hashes. cbn.
  destruct (calculate_image_hash sha256_hexdigest input) as [ch|];
    destruct (calculate_image_perceptual_hash input) as [ph|];
    repeat split; intros; auto;
    try discriminate;
    match goal with
    | H : _ \/ _ |- _ => destruct H; discriminate
    end.
Qed.

End CombinedEntryPoint.

Lemma C2_witness :
  let r := calculate_image_hashes length_digest
             (@of_Image raster_pillow lab_image) in
  hashes_success r = false /\
  hashes_image_hash r
  = Some "0000000000000000000000000000000000000000000000000000000000001000" /\
  hashes_perceptual_hash r = None.
Proof.
  pose proof (@C2_hashes_flag_and_fields raster_pillow length_digest
                (@of_Image raster_pillow lab_image)) as (Hflag & Hc & Hp).
  intros r. unfold r. clear r. split; [|split].
  - apply Hflag. right. reflexivity.
  - rewrite Hc. reflexivity.
  - rewrite Hp. reflexivity.
Defined.

(** C2 as stated fails on an image in mode "LAB": it converts to "RGB", so
    the content hash is computed, while [convert('L')] raises, so the
    perceptual hash is missing; the result is flagged unsuccessful and
    carries the content hash. *)
Lemma C2_counterexample :
  let r := calculate_image_hashes length_digest
             (@of_Image raster_pillow lab_image) in
  ~ (hashes_success r = false ->
     hashes_image_hash r = None /\ hashes_perceptual_hash r = None).
Proof.
  intros r H.
  destruct H as [H _]; [reflexivity|].
  vm_compute in H. discriminate H.
Qed.

(** ** File information *)

Lemma startswith_spec (prefix : list byte) :
  forall data, startswith data prefix = true <-> begins_with prefix data.
Proof.
  induction prefix as [|p prefix IH]; intros data.
  - destruct data; simpl; split; intros _; try reflexivity;
      eexists; reflexivity.
  - destruct data as [|d data]; simpl.
    + split; [discriminate | intros [rest H]; discriminate H].
    + rewrite andb_true_iff, IH. split.
      * intros [Hd [rest Hrest]]. apply byte_dec_bl in Hd. subst.
        exists rest. reflexivity.
      * intros [rest H]. injection H as Hd Hrest. subst. split.
        -- now apply byte_dec_lb.
        -- exists rest. reflexivity.
Qed.

Lemma bytes_in_unfold (needle data : list byte) :
  bytes_in needle data
  = startswith data needle ||
    match data with
    | [] => false
    | _ :: data' => bytes_in needle data'
    end.
Proof. destruct data; reflexivity. Qed.

Lemma bytes_in_spec (needle : list byte) :
  forall data, bytes_in needle data = true <-> occurs_in needle data.
Proof.
  intros data. split.
  - induction data as [|d data IH]; rewrite bytes_in_unfold, orb_true_iff;
      intros [H|H]; try discriminate.
    + apply startswith_spec in H. destruct H as [rest H].
      exists [], rest. exact H.
    + apply startswith_spec in H. destruct H as [rest H].
      exists [], rest. exact H.
    + destruct (IH H) as (before & after & E).
      exists (d :: before), after. simpl. now rewrite E.
  - intros (before & after & E). subst data.
    induction before as [|b before IH]; rewrite bytes_in_unfold.
    + assert (H : startswith (needle ++ after) needle = true)
        by (apply startswith_spec; exists after; reflexivity).
      simpl app. now rewrite H.
    + simpl app. cbv beta iota. rewrite IH. apply orb_true_r.
Qed.

Section FileInformation.

Variable fs : filesystem.
Variable guess_type : string -> option string.

Lemma mime_by_extension (file_path : string) (entry : fs_entry) (m : string) :
  fs file_path = Some entry ->
  guess_type file_path = Some m -> m <> "" ->
  info_mime_type (get_file_info fs guess_type file_path) = Some m.
Proof.
  intros Hstat Hguess Hm. unfold get_file_info. rewrite Hstat, Hguess.
  simpl. apply String.eqb_neq in Hm. now rewrite Hm.
Qed.

Lemma mime_fallback (file_path : string) (entry : fs_entry) :
  fs file_path = Some entry ->
  truthy (guess_type file_path) = false ->
  info_mime_type (get_file_info fs guess_type file_path)
  = detect_mime_type_by_content fs file_path.
Proof.
  intros Hstat Hguess. unfold get_file_info. rewrite Hstat, Hguess.
  reflexivity.
Qed.

Lemma sniff_table (file_path : string) (entry : fs_entry)
    (content : list byte) (m : string) :
  fs file_path = Some entry ->
  read_bytes entry = Some content ->
  magic (firstn 32 content) m ->
  detect_mime_type_by_content fs file_path = Some m.
Proof.
  intros Hstat Hread Hmagic. unfold detect_mime_type_by_content.
  rewrite Hstat, Hread.
  set (header := firstn 32 content) in *.
  inversion Hmagic as [h H|h H|h H|h H|h H Hw|h H|h H]; subst h m;
    try (apply bytes_in_spec in Hw; rewrite Hw);
    destruct H as [rest H]; rewrite H; reflexivity.
Qed.

Lemma sniff_default (file_path : string) (entry : fs_entry)
    (content : list byte) :
  fs file_path = Some entry ->
  read_bytes entry = Some content ->
  (forall m, ~ magic (firstn 32 content) m) ->
  detect_mime_type_by_content fs file_path = Some "application/octet-stream".
Proof.
  intros Hstat Hread Hnone. unfold detect_mime_type_by_content.
  rewrite Hstat, Hread.
  set (header := firstn 32 content) in *.
  repeat match goal with
  | |- context [startswith header ?sig] =>
      let E := fresh "E" in
      destruct (startswith header sig) eqn:E;
      [apply startswith_spec in E|]
  | |- context [bytes_in ?sig ?d] =>
      let E := fresh "E" in
      destruct (bytes_in sig d) eqn:E;
      [apply bytes_in_spec in E|]
  end; simpl; try reflexivity; exfalso.
  all: try (eapply Hnone; constructor; eassumption).
  all: try (eapply Hnone; apply magic_gif87a; eassumption).
  all: try (eapply Hnone; apply magic_gif89a; eassumption).
Qed.

(** C9: for a path that exists, the mime type is the one found for the
    extension of the name when there is one; otherwise it is the result
    of sniffing the first 32 bytes, which follows the table of magic
    numbers (JPEG, PNG, GIF87a and GIF89a, RIFF with WEBP within the first
    12 bytes, BM, ICO) and is [application/octet-stream] when no row
    applies.  In particular a file without known extension that begins
    with FF D8 FF is [image/jpeg]. *)
Theorem C9_mime_type_resolution (file_path : string) (entry : fs_entry) :
  fs file_path = Some entry ->
  (forall m, guess_type file_path = Some m -> m <> "" ->
             info_mime_type (get_file_info fs guess_type file_path) = Some m) /\
  (truthy (guess_type file_path) = false ->
   forall content, read_bytes entry = Some content ->
     (forall m, magic (firstn 32 content) m ->
                info_mime_type (get_file_info fs guess_type file_path) = Some m) /\
     ((forall m, ~ magic (firstn 32 content) m) ->
      info_mime_type (get_file_info fs guess_type file_path)
      = Some "application/octet-stream") /\
     (forall rest, content = [xff; xd8; xff] ++ rest ->
        info_mime_type (get_file_info fs guess_type file_path)
        = Some "image/jpeg")).
Proof.
  intros Hstat. split.
  - intros m. now apply mime_by_extension with (entry := entry).
  - intros Hguess content Hread.
    rewrite (mime_fallback file_path entry Hstat Hguess).
    split; [|split].
    + intros m. now apply sniff_table with (entry := entry).
    + now apply sniff_default with (entry := entry).
    + intros rest Hc.
      apply sniff_table with (entry := entry) (content := content); trivial.
      apply magic_jpeg. subst content.
      exists (firstn 29 rest). reflexivity.
Qed.

End FileInformation.

Lemma C9_witness :
  info_mime_type (get_file_info sample_fs guess_by_suffix "upload_0001")
  = Some "image/jpeg".
Proof.
  destruct (C9_mime_type_resolution sample_fs guess_by_suffix "upload_0001"
              {| st_size := 5; read_bytes := Some [xff; xd8; xff; xe0; x00] |}
              eq_refl) as [_ H].
  destruct (H eq_refl [xff; xd8; xff; xe0; x00] eq_refl) as (_ & _ & Hjpeg).
  apply (Hjpeg [xe0; x00]). reflexivity.
Defined.

(** ** Grouping exact duplicates *)

Lemma key_eqb_eq (a b : option string) : key_eqb a b = true <-> a = b.
Proof.
  destruct a as [x|], b as [y|]; simpl; split; intros H;
    try discriminate; try reflexivity.
  - apply String.eqb_eq in H. now subst.
  - injection H as ->. apply String.eqb_refl.
Qed.

Lemma key_eqb_refl (a : option string) : key_eqb a a = true.
Proof. now apply key_eqb_eq. Qed.

Lemma key_eqb_sym (a b : option string) : key_eqb a b = key_eqb b a.
Proof.
  destruct (key_eqb a b) eqn:E1, (key_eqb b a) eqn:E2; try reflexivity.
  - apply key_eqb_eq in E1. subst. now rewrite key_eqb_refl in E2.
  - apply key_eqb_eq in E2. subst. now rewrite key_eqb_refl in E1.
Qed.

(** Membership of a key, as a boolean. *)
Lemma existsb_key (k : option string) (keys : list (option string)) :
  existsb (fun k' => key_eqb k' k) keys = true <-> In k keys.
Proof.
  rewrite existsb_exists. split.
  - intros (k' & Hin & E). apply key_eqb_eq in E. now subst.
  - intros Hin. exists k. split; [exact Hin | apply key_eqb_refl].
Qed.

Lemma first_seen_In (k : option string) (keys : list (option string)) :
  In k (first_seen keys) <-> In k keys.
Proof.
  induction keys as [|a keys IH]; simpl.
  - tauto.
  - rewrite filter_In, IH, negb_true_iff.
    destruct (key_eqb k a) eqn:E.
    + apply key_eqb_eq in E. subst. intuition congruence.
    + assert (a <> k).
      { intros ->. now rewrite key_eqb_refl in E. }
      intuition congruence.
Qed.

Lemma first_seen_NoDup (keys : list (option string)) : NoDup (first_seen keys).
Proof.
  induction keys as [|a keys IH]; simpl.
  - constructor.
  - constructor.
    + rewrite filter_In, key_eqb_refl. intros [_ H]. discriminate H.
    + now apply NoDup_filter.
Qed.

Lemma first_seen_snoc (keys : list (option string)) (k : option string) :
  first_seen (keys ++ [k])
  = if existsb (fun k' => key_eqb k' k) keys
    then first_seen keys
    else first_seen keys ++ [k].
Proof.
  induction keys as [|a keys IH]; simpl.
  - reflexivity.
  - rewrite IH. destruct (key_eqb a k) eqn:E; simpl.
    + destruct (existsb (fun k' => key_eqb k' k) keys); [reflexivity|].
      rewrite filter_app. simpl. rewrite key_eqb_sym, E. simpl.
      now rewrite app_nil_r.
    + destruct (existsb (fun k' => key_eqb k' k) keys); [reflexivity|].
      rewrite filter_app. simpl. rewrite key_eqb_sym, E. reflexivity.
Qed.

Lemma bucket_snoc (h : option string) (l : list Images_metadata)
    (m : Images_metadata) :
  bucket h (l ++ [m])
  = bucket h l ++ (if key_eqb (image_hash m) h then [m] else []).
Proof. unfold bucket. rewrite filter_app. reflexivity. Qed.

Lemma bucket_absent (h : option string) (l : list Images_metadata) :
  ~ In h (map image_hash l) -> bucket h l = [].
Proof.
  intros Hnot. unfold bucket.
  induction l as [|m l IH]; simpl in *.
  - reflexivity.
  - destruct (key_eqb (image_hash m) h) eqn:E.
    + apply key_eqb_eq in E. tauto.
    + apply IH. tauto.
Qed.

Lemma existsb_map {A B : Type} (f : A -> B) (p : B -> bool) (l : list A) :
  existsb p (map f l) = existsb (fun x => p (f x)) l.
Proof. induction l as [|x l IH]; simpl; [reflexivity | now rewrite IH]. Qed.

(** The dictionary built by the first loop: one entry per distinct
    fingerprint, in first-seen order, holding the rows that carry it. *)
Lemma hash_groups_buckets (l : list Images_metadata) :
  fold_left
    (fun hash_groups meta =>
       if dict_mem (image_hash meta) hash_groups
       then dict_append (image_hash meta) meta hash_groups
       else dict_set_new (image_hash meta) [meta] hash_groups)
    l []
  = map (fun h => (h, bucket h l)) (first_seen (map image_hash l)).
Proof.
  induction l as [|m l IH] using rev_ind.
  - reflexivity.
  - rewrite fold_left_app. simpl. rewrite IH. clear IH.
    rewrite map_app. simpl map. rewrite first_seen_snoc.
    unfold dict_mem. rewrite existsb_map. cbn [fst].
    assert (Hmem :
      existsb (fun k' => key_eqb k' (image_hash m)) (first_seen (map image_hash l))
      = existsb (fun k' => key_eqb k' (image_hash m)) (map image_hash l)).
    { apply eq_true_iff_eq. rewrite !existsb_key. apply first_seen_In. }
    rewrite Hmem.
    destruct (existsb (fun k' => key_eqb k' (image_hash m)) (map image_hash l))
      eqn:E.
    + unfold dict_append. rewrite map_map. apply map_ext. intros h. simpl.
      rewrite bucket_snoc, (key_eqb_sym (image_hash m) h).
      destruct (key_eqb h (image_hash m)); [reflexivity|].
      now rewrite app_nil_r.
    + unfold dict_set_new. rewrite map_app. simpl map.
      assert (Hnot : ~ In (image_hash m) (map image_hash l)).
      { intros Hin. apply existsb_key in Hin. congruence. }
      f_equal.
      * apply map_ext_in. intros h Hh. rewrite first_seen_In in Hh.
        rewrite bucket_snoc.
        destruct (key_eqb (image_hash m) h) eqn:E'.
        -- apply key_eqb_eq in E'. subst h. contradiction.
        -- now rewrite app_nil_r.
      * rewrite bucket_snoc, key_eqb_refl, (bucket_absent _ _ Hnot).
        reflexivity.
Qed.

Section Appending.

Variables A B : Type.
Variable step : list B -> A -> list B.
Variable emitted : A -> list B.
Hypothesis step_appends : forall acc x, step acc x = acc ++ emitted x.

(** A loop that only appends to its accumulator is a [flat_map]. *)
Lemma fold_appending (l : list A) (acc : list B) :
  fold_left step l acc = acc ++ flat_map emitted l.
Proof.
  revert acc; induction l as [|x l IH]; intros acc; simpl.
  - now rewrite app_nil_r.
  - rewrite IH, step_appends, <- app_assoc. reflexivity.
Qed.

End Appending.

Lemma flat_map_map {A B C : Type} (f : A -> B) (g : B -> list C) (l : list A) :
  flat_map g (map f l) = flat_map (fun x => g (f x)) l.
Proof. induction l as [|x l IH]; simpl; [reflexivity | now rewrite IH]. Qed.

(** The query returns the groups of the specification, in the order in
    which their fingerprints are first seen. *)
Lemma find_duplicate_images_groups (l : list Images_metadata) :
  find_duplicate_images l = duplicate_groups l.
Proof.
  unfold find_duplicate_images, duplicate_groups.
  rewrite hash_groups_buckets.
  rewrite (fold_appending _ _ _
             (fun kv : option string * list Images_metadata =>
                if (1 <? List.length (snd kv))%nat
                then [{| dup_image_hash := fst kv;
                         dup_count := List.length (snd kv);
                         dup_images := snd kv |}]
                else [])).
  - simpl. rewrite flat_map_map. reflexivity.
  - intros acc [h metas]. simpl.
    destruct (1 <? List.length metas)%nat; [reflexivity|].
    now rewrite app_nil_r.
Qed.

Lemma duplicate_groups_In (l : list Images_metadata) (g : duplicate_group) :
  In g (duplicate_groups l) <->
  exists h, In h (map image_hash l) /\ 2 <= List.length (bucket h l) /\
            g = {| dup_image_hash := h;
                   dup_count := List.length (bucket h l);
                   dup_images := bucket h l |}.
Proof.
  unfold duplicate_groups. rewrite in_flat_map. split.
  - intros (h & Hh & Hg). rewrite first_seen_In in Hh.
    destruct (Nat.leb_spec 2 (List.length (bucket h l))) as [Hle|Hlt].
    + destruct Hg as [Hg|[]]. exists h. now subst g.
    + destruct Hg.
  - intros (h & Hh & Hle & Hg). exists h. split.
    + now apply first_seen_In.
    + apply Nat.leb_le in Hle. rewrite Hle. left. now subst g.
Qed.

Lemma duplicate_groups_keys (l : list Images_metadata) :
  map dup_image_hash (duplicate_groups l)
  = filter (fun h => (2 <=? List.length (bucket h l))%nat)
           (first_seen (map image_hash l)).
Proof.
  unfold duplicate_groups.
  induction (first_seen (map image_hash l)) as [|h keys IH].
  - reflexivity.
  - cbn [flat_map filter]. rewrite map_app, IH.
    destruct (2 <=? List.length (bucket h l))%nat; reflexivity.
Qed.

Lemma bucket_In (h : option string) (l : list Images_metadata)
    (m : Images_metadata) :
  In m (bucket h l) <-> In m l /\ image_hash m = h.
Proof. unfold bucket. rewrite filter_In, key_eqb_eq. reflexivity. Qed.

Lemma bucket_populated (h : option string) (l : list Images_metadata) :
  1 <= List.length (bucket h l) -> In h (map image_hash l).
Proof.
  intros Hlen. destruct (bucket h l) as [|m b] eqn:E; [simpl in Hlen; lia|].
  assert (Hm : In m (bucket h l)) by (rewrite E; now left).
  apply bucket_In in Hm. destruct Hm as [Hin <-].
  now apply in_map.
Qed.

(** C5: the groups returned have pairwise distinct fingerprints; a
    fingerprint has a group exactly when at least two rows carry it; the
    members of a group are the rows carrying its fingerprint, in input
    order, their number is the recorded count and is at least 2.  On three
    rows with fingerprint a*64 and one with b*64 the result is the single
    group of the three. *)
Theorem C5_duplicate_groups :
  (forall l : list Images_metadata,
      let groups := find_duplicate_images l in
      NoDup (map dup_image_hash groups) /\
      (forall h, In h (map dup_image_hash groups) <->
                 2 <= List.length (bucket h l)) /\
      (forall g, In g groups ->
                 dup_images g = bucket (dup_image_hash g) l /\
                 dup_count g = List.length (dup_images g) /\
                 2 <= dup_count g)) /\
  map (fun g => (dup_image_hash g, dup_count g, map id (dup_images g)))
      (find_duplicate_images catalog_abc)
  = [(Some a64, 3, [1; 2; 4]%Z)].
Proof.
  split; [|reflexivity].
  intros l groups. unfold groups. clear groups.
  rewrite find_duplicate_images_groups. split; [|split].
  - rewrite duplicate_groups_keys. apply NoDup_filter, first_seen_NoDup.
  - intros h. rewrite duplicate_groups_keys, filter_In, first_seen_In.
    rewrite Nat.leb_le. split; [tauto|].
    intros Hle. split; [|exact Hle]. apply bucket_populated. lia.
  - intros g Hg. apply duplicate_groups_In in Hg.
    destruct Hg as (h & _ & Hle & ->). simpl. auto.
Qed.

Lemma C5_witness :
  In (Some a64) (map dup_image_hash (find_duplicate_images catalog_abc)) /\
  ~ In (Some b64) (map dup_image_hash (find_duplicate_images catalog_abc)).
Proof.
  destruct C5_duplicate_groups as [H _].
  destruct (H catalog_abc) as (_ & Hkeys & _).
  split.
  - apply Hkeys. vm_compute. lia.
  - intros Hin. apply Hkeys in Hin. vm_compute in Hin. lia.
Defined.

(** ** Grouping similar images *)

Lemma flat_map_enumerate {A B : Type} (emitted : A -> list B) (l : list A) :
  forall start,
    flat_map (fun jx : nat * A => emitted (snd jx)) (enumerate l start)
    = flat_map emitted l.
Proof.
  induction l as [|x l IH]; intros start; simpl.
  - reflexivity.
  - now rewrite IH.
Qed.

Lemma flat_map_filter {A : Type} (p : A -> bool) (l : list A) :
  flat_map (fun x => if p x then [x] else []) l = filter p l.
Proof.
  induction l as [|x l IH]; simpl.
  - reflexivity.
  - rewrite IH. destruct (p x); reflexivity.
Qed.

(** The inner loop gathers, behind the anchor, the later rows that pass
    the test, in input order. *)
Lemma inner_scan (meta1 : Images_metadata) (threshold : Z)
    (later : list Images_metadata) (start : nat) :
  fold_left
    (fun similar_images '(j, meta2) =>
       if negb (truthy (perceptual_hash meta2)) then similar_images
       else
         let hamming_distance :=
           calculate_hamming_distance
             (str_of (perceptual_hash meta1))
             (str_of (perceptual_hash meta2)) in
         if distance_le hamming_distance threshold
         then similar_images ++ [meta2]
         else similar_images)
    (enumerate later start) [meta1]
  = meta1 :: filter (similar_to meta1 threshold) later.
Proof.
  rewrite (fold_appending _ _ _
             (fun jx : nat * Images_metadata =>
                if similar_to meta1 threshold (snd jx) then [snd jx] else [])).
  - rewrite (flat_map_enumerate
               (fun x => if similar_to meta1 threshold x then [x] else [])).
    now rewrite flat_map_filter.
  - intros acc [j meta2]. unfold similar_to, row_distance. simpl.
    destruct (truthy (perceptual_hash meta2)); simpl.
    + destruct (distance_le _ threshold); [reflexivity | now rewrite app_nil_r].
    + now rewrite app_nil_r.
Qed.

(** The outer loop appends one [star] per row, in input order. *)
Lemma find_similar_images_stars (l : list Images_metadata) (threshold : Z) :
  find_similar_images l threshold
  = flat_map (fun im => star l threshold (fst im) (snd im)) (enumerate l 0).
Proof.
  unfold find_similar_images.
  rewrite (fold_appending _ _ _
             (fun im : nat * Images_metadata =>
                star l threshold (fst im) (snd im))); [reflexivity|].
  intros acc [i meta1]. unfold star. simpl fst. simpl snd.
  destruct (negb (truthy (perceptual_hash meta1))).
  - now rewrite app_nil_r.
  - rewrite inner_scan.
    destruct (1 <? _)%nat; [reflexivity | now rewrite app_nil_r].
Qed.


(** *** Rows and indices *)

Lemma nth_error_at_length {A : Type} (pre suf : list A) (x : A) :
  nth_error (pre ++ x :: suf) (List.length pre) = Some x.
Proof.
  rewrite nth_error_app2 by lia. now rewrite Nat.sub_diag.
Qed.

Lemma snoc_cons {A : Type} (pre suf : list A) (x : A) :
  pre ++ x :: suf = (pre ++ [x]) ++ suf.
Proof. now rewrite <- app_assoc. Qed.

Lemma length_snoc {A : Type} (pre : list A) (x : A) :
  List.length (pre ++ [x]) = S (List.length pre).
Proof. rewrite length_app. simpl. lia. Qed.

(** Enumerating the tail of a list visits the indices after the head, each
    with the row found there. *)
Lemma enumerate_by_index {A B : Type} (emitted : nat * A -> list B)
    (suf : list A) :
  forall pre,
    flat_map emitted (enumerate suf (List.length pre))
    = flat_map
        (fun i => match nth_error (pre ++ suf) i with
                  | Some x => emitted (i, x)
                  | None => []
                  end)
        (seq (List.length pre) (List.length suf)).
Proof.
  induction suf as [|x suf IH]; intros pre.
  - reflexivity.
  - cbn [enumerate List.length seq flat_map].
    rewrite nth_error_at_length. f_equal.
    rewrite <- (length_snoc pre x), (snoc_cons pre suf x). apply IH.
Qed.

Lemma filter_by_index (q : Images_metadata -> bool)
    (suf : list Images_metadata) :
  forall pre,
    filter q suf
    = rows_at (pre ++ suf)
        (filter
           (fun j => match nth_error (pre ++ suf) j with
                     | Some b => q b
                     | None => false
                     end)
           (seq (List.length pre) (List.length suf))).
Proof.
  induction suf as [|x suf IH]; intros pre.
  - reflexivity.
  - cbn [List.length seq filter].
    rewrite nth_error_at_length.
    rewrite (IH (pre ++ [x])), (length_snoc pre x), <- (snoc_cons pre suf x).
    destruct (q x); [|reflexivity].
    unfold rows_at. cbn [flat_map]. now rewrite nth_error_at_length.
Qed.

Lemma filter_skipn_by_index (q : Images_metadata -> bool)
    (l : list Images_metadata) (s : nat) :
  s <= List.length l ->
  filter q (skipn s l)
  = rows_at l
      (filter
         (fun j => match nth_error l j with
                   | Some b => q b
                   | None => false
                   end)
         (seq s (List.length l - s))).
Proof.
  intros Hs.
  rewrite (filter_by_index q (skipn s l) (firstn s l)).
  rewrite firstn_skipn, length_firstn, length_skipn.
  now rewrite Nat.min_l by exact Hs.
Qed.

Lemma flat_map_ext_in {A B : Type} (f g : A -> list B) (l : list A) :
  (forall x, In x l -> f x = g x) -> flat_map f l = flat_map g l.
Proof.
  induction l as [|x l IH]; intros H; simpl.
  - reflexivity.
  - rewrite (H x (or_introl eq_refl)), IH; [reflexivity|].
    intros y Hy. apply H. now right.
Qed.

Lemma skipn_In {A : Type} (l : list A) (s : nat) (x : A) :
  In x (skipn s l) -> In x l.
Proof.
  intros H. rewrite <- (firstn_skipn s l). apply in_or_app. now right.
Qed.

(** With every fingerprint present, the star of a row is the group of the
    anchor scan at its index. *)
Lemma star_anchor (l : list Images_metadata) (threshold : Z)
    (i : nat) (meta1 : Images_metadata) :
  Forall (fun m => truthy (perceptual_hash m) = true) l ->
  nth_error l i = Some meta1 ->
  star l threshold i meta1
  = match members_of l threshold i with
    | [] => []
    | js =>
        let group := rows_at l (i :: js) in
        [{| sim_threshold := threshold;
            sim_count := List.length group;
            sim_images := group |}]
    end.
Proof.
  intros Hall Hi.
  assert (Hlt : i + 1 <= List.length l).
  { assert (i < List.length l) by (apply nth_error_Some; congruence). lia. }
  assert (Hmeta1 : truthy (perceptual_hash meta1) = true).
  { rewrite Forall_forall in Hall. apply Hall. eapply nth_error_In. exact Hi. }
  unfold star. rewrite Hmeta1. cbn [negb].
  assert (Hfilter :
    filter (similar_to meta1 threshold) (skipn (i + 1) l)
    = rows_at l (members_of l threshold i)).
  { rewrite (filter_ext_in (similar_to meta1 threshold)
               (fun b => distance_le (row_distance meta1 b) threshold)).
    - rewrite (filter_skipn_by_index _ l (i + 1) Hlt).
      unfold members_of. rewrite Hi. reflexivity.
    - intros b Hb. apply skipn_In in Hb. unfold similar_to.
      rewrite Forall_forall in Hall. now rewrite (Hall b Hb). }
  rewrite Hfilter.
  assert (Hgroup : forall js, rows_at l (i :: js) = meta1 :: rows_at l js).
  { intros js. unfold rows_at. cbn [flat_map]. now rewrite Hi. }
  destruct (members_of l threshold i) as [|j js] eqn:E.
  - reflexivity.
  - rewrite Hgroup.
    assert (Hj : In j (members_of l threshold i)) by (rewrite E; now left).
    unfold members_of in Hj. apply filter_In in Hj. destruct Hj as [_ Hj].
    rewrite Hi in Hj.
    destruct (nth_error l j) as [b|] eqn:Ej; [|discriminate Hj].
    unfold rows_at. cbn [flat_map]. rewrite Ej. reflexivity.
Qed.

Lemma find_similar_images_anchor_scan (l : list Images_metadata) (threshold : Z) :
  Forall (fun m => truthy (perceptual_hash m) = true) l ->
  find_similar_images l threshold = anchor_scan l threshold.
Proof.
  intros Hall. rewrite find_similar_images_stars.
  pose proof (enumerate_by_index
                (fun im => star l threshold (fst im) (snd im)) l []) as H.
  cbn [List.length app] in H. rewrite H. clear H.
  unfold anchor_scan.
  apply flat_map_ext_in. intros i Hi. apply in_seq in Hi.
  destruct (nth_error l i) as [meta1|] eqn:E.
  - cbn [fst snd]. now apply star_anchor.
  - apply nth_error_None in E. lia.
Qed.

(** C4: on rows that all carry a perceptual fingerprint the query is the
    anchor scan: anchors are taken at every index in input order; the group
    of index [i] holds row [i] followed by the rows at the later indices
    within the threshold, in input order, and is returned exactly when one
    such row exists.  No row is put aside once matched: on the three
    fixtures the second row is a member of the first group and the anchor
    of the second. *)
Theorem C4_anchor_scan :
  (forall (l : list Images_metadata) (threshold : Z),
      Forall (fun m => truthy (perceptual_hash m) = true) l ->
      find_similar_images l threshold = anchor_scan l threshold) /\
  map (fun g => map id (sim_images g)) (find_similar_images catalog_h 2)
  = [[1; 2; 3]; [2; 3]]%Z.
Proof.
  split.
  - exact find_similar_images_anchor_scan.
  - reflexivity.
Qed.

Lemma C4_witness :
  Forall (fun m => truthy (perceptual_hash m) = true) catalog_h /\
  find_similar_images catalog_h 2 = anchor_scan catalog_h 2.
Proof.
  assert (H : Forall (fun m => truthy (perceptual_hash m) = true) catalog_h).
  { repeat constructor. }
  split.
  - exact H.
  - exact (proj1 C4_anchor_scan catalog_h 2%Z H).
Defined.

(** * Further properties of the code *)

(** ** The comparator as a metric *)

Lemma filter_map_length {A B : Type} (f : A -> B) (p : B -> bool) (l : list A) :
  List.length (filter p (map f l)) = List.length (filter (fun x => p (f x)) l).
Proof.
  induction l as [|x l IH]; simpl.
  - reflexivity.
  - destruct (p (f x)); simpl; now rewrite IH.
Qed.

(** Position by position: the first characters, then the rest. *)
Lemma mismatches_cons (x y : ascii) (a b : string) :
  mismatches (String x a) (String y b)
  = (if Ascii.eqb x y then 0 else 1) + mismatches a b.
Proof.
  unfold mismatches. cbn [String.length].
  rewrite <- cons_seq, <- seq_shift. cbn [filter String.get char_eqb].
  destruct (Ascii.eqb x y); cbn [negb List.length];
    rewrite filter_map_length; reflexivity.
Qed.

Lemma mismatches_zero_eq (a : string) :
  forall b, String.length a = String.length b -> mismatches a b = 0 -> a = b.
Proof.
  induction a as [|x a IH]; intros [|y b] Hlen H; try discriminate Hlen.
  - reflexivity.
  - rewrite mismatches_cons in H.
    destruct (Ascii.eqb x y) eqn:E; [|discriminate H].
    apply Ascii.eqb_eq in E. subst y. f_equal.
    apply IH; [now injection Hlen | exact H].
Qed.

Lemma mismatches_triangle (a : string) :
  forall b c,
    String.length a = String.length b -> String.length b = String.length c ->
    mismatches a c <= mismatches a b + mismatches b c.
Proof.
  induction a as [|x a IH]; intros [|y b] [|z c] Hab Hbc;
    try discriminate Hab; try discriminate Hbc.
  - unfold mismatches. simpl. lia.
  - rewrite !mismatches_cons.
    injection Hab as Hab. injection Hbc as Hbc.
    specialize (IH b c Hab Hbc).
    destruct (Ascii.eqb x y) eqn:Exy, (Ascii.eqb y z) eqn:Eyz,
             (Ascii.eqb x z) eqn:Exz; try lia.
    apply Ascii.eqb_eq in Exy, Eyz. subst.
    rewrite Ascii.eqb_refl in Exz. discriminate Exz.
Qed.

(** X1: the distance is zero exactly between a string and itself. *)
Theorem hamming_zero_iff_equal (a b : string) :
  calculate_hamming_distance a b = Finite 0 <-> a = b.
Proof.
  split.
  - intros H.
    destruct (Nat.eq_dec (String.length a) (String.length b)) as [Hlen|Hlen].
    + rewrite (hamming_equal_length a b Hlen) in H. injection H as H.
      now apply mismatches_zero_eq.
    + rewrite (hamming_different_length a b Hlen) in H. discriminate H.
  - intros <-. rewrite (hamming_equal_length a a eq_refl).
    now rewrite mismatches_refl.
Qed.

Lemma hamming_zero_iff_equal_witness :
  calculate_hamming_distance h1 h1 = Finite 0 /\ h1 <> h2.
Proof.
  split.
  - apply (proj2 (hamming_zero_iff_equal h1 h1)). reflexivity.
  - intros E. apply (proj2 (hamming_zero_iff_equal h1 h2)) in E.
    vm_compute in E. discriminate E.
Defined.

(** X2: on three strings of one length the distances are numbers that obey
    the triangle inequality. *)
Theorem hamming_triangle (a b c : string) :
  String.length a = String.length b ->
  String.length b = String.length c ->
  exists dab dbc dac,
    calculate_hamming_distance a b = Finite dab /\
    calculate_hamming_distance b c = Finite dbc /\
    calculate_hamming_distance a c = Finite dac /\
    dac <= dab + dbc.
Proof.
  intros Hab Hbc.
  exists (mismatches a b), (mismatches b c), (mismatches a c).
  repeat split.
  - now apply hamming_equal_length.
  - now apply hamming_equal_length.
  - apply hamming_equal_length. congruence.
  - now apply mismatches_triangle.
Qed.

Lemma hamming_triangle_witness :
  exists dab dbc dac,
    calculate_hamming_distance h0 h1 = Finite dab /\
    calculate_hamming_distance h1 h2 = Finite dbc /\
    calculate_hamming_distance h0 h2 = Finite dac /\
    dac <= dab + dbc.
Proof.
  apply (hamming_triangle h0 h1 h2); reflexivity.
Defined.

(** ** The perceptual hasher on any pixel list *)

Lemma int_gt_div (pixel total : Z) (n : positive) :
  int_gt pixel (inject_Z total / inject_Z (Z.pos n))%Q
  = (total <? Z.pos n * pixel)%Z.
Proof.
  unfold int_gt.
  destruct (Z.ltb_spec total (Z.pos n * pixel)) as [H|H].
  - apply negb_true_iff. apply not_true_is_false. intros Hle.
    apply Qle_bool_iff in Hle. unfold Qle in Hle. simpl in Hle. lia.
  - apply negb_false_iff. apply Qle_bool_iff. unfold Qle. simpl. lia.
Qed.

(** On a non-empty pixel list the hasher succeeds, with the digits of the
    packed bits. *)
Lemma hash_of_pixels_bits (pixels : list Z) :
  pixels <> [] ->
  hash_of_pixels pixels
  = Some (format_016x (pack_msb_first (above_mean pixels))).
Proof.
  intros Hne. unfold hash_of_pixels, true_div.
  destruct (Z.of_nat (List.length pixels)) as [|n|n] eqn:En.
  - destruct pixels; [contradiction | discriminate En].
  - cbn [Z.eqb].
    assert (Hbits :
      map (fun pixel =>
             if int_gt pixel (inject_Z (fold_left Z.add pixels 0%Z)
                              / inject_Z (Z.pos n))%Q
             then "1" else "0") pixels
      = map bit_str (above_mean pixels)).
    { unfold above_mean. rewrite map_map, En. apply map_ext. intros v.
      now rewrite int_gt_div. }
    rewrite Hbits, int_base2_pack; [reflexivity|].
    unfold above_mean. destruct pixels; [contradiction | discriminate].
  - lia.
Qed.

Lemma above_mean_length (pixels : list Z) :
  List.length (above_mean pixels) = List.length pixels.
Proof. unfold above_mean. apply length_map. Qed.

Lemma above_mean_threshold_bits (pixels : list Z) :
  List.length pixels = 64 -> above_mean pixels = threshold_bits pixels.
Proof.
  intros Hlen. unfold above_mean, threshold_bits. rewrite Hlen.
  apply map_ext. intros v.
  now rewrite mean64_gt, sum_fold_right.
Qed.

Lemma hash_of_pixels_empty : hash_of_pixels [] = None.
Proof. reflexivity. Qed.

Section PerceptualFailure.

Context {PIL : Pillow}.

(** X3: the perceptual hash is missing exactly when the input cannot be
    brought to its canonical form (loading, converting or resizing raises)
    or the canonical image has no pixel. *)
Theorem perceptual_hash_none_iff (input : image_input) :
  calculate_image_perceptual_hash input = None <->
  resize_image input (8, 8) "L" = None \/
  exists img, resize_image input (8, 8) "L" = Some img /\ Image_getdata img = [].
Proof.
  unfold calculate_image_perceptual_hash, resize_image.
  destruct (_load_image_from_input input) as [img|]; [|tauto].
  destruct (_prepare_image_for_hash img (8, 8) "L") as [img'|]; [|tauto].
  split.
  - intros H. right. exists img'. split; [reflexivity|].
    destruct (Image_getdata img') as [|v l] eqn:E; [reflexivity|].
    rewrite hash_of_pixels_bits in H by discriminate. discriminate H.
  - intros [H|(img'' & H & Hdata)]; [discriminate H|].
    injection H as <-. rewrite Hdata. reflexivity.
Qed.

End PerceptualFailure.

Lemma perceptual_hash_none_iff_witness :
  calculate_image_perceptual_hash (@of_bytes raster_pillow []) = None.
Proof.
  apply (@perceptual_hash_none_iff raster_pillow). left. reflexivity.
Defined.

(** ** The shape of a perceptual hash *)

Lemma nibble_lt (n : N) (k : nat) : (nibble n k < 16)%N.
Proof. rewrite nibble_div. apply N.mod_lt. discriminate. Qed.

Lemma small_N_cases (d : N) :
  (d < 16)%N -> exists k, k < 16 /\ d = N.of_nat k.
Proof. intros H. exists (N.to_nat d). split; lia. Qed.

(** Reading a digit back gives the value it was written for. *)
Lemma hex_digit_value (d : N) :
  (d < 16)%N -> HexString.ascii_to_digit (hex_digit d) = Some d.
Proof.
  intros H. destruct (small_N_cases d H) as (k & Hk & ->).
  do 16 (destruct k as [|k]; [reflexivity|]). lia.
Qed.

Lemma hex_digit_alphabet (d : N) : (d < 16)%N -> In (hex_digit d) hex_alphabet.
Proof.
  intros H. destruct (small_N_cases d H) as (k & Hk & ->).
  do 16 (destruct k as [|k];
         [vm_compute; repeat (first [left; reflexivity | right])|]).
  lia.
Qed.

Lemma hex_digit_inj (d e : N) :
  (d < 16)%N -> (e < 16)%N -> hex_digit d = hex_digit e -> d = e.
Proof.
  intros Hd He E.
  pose proof (hex_digit_value d Hd) as H1.
  rewrite E, (hex_digit_value e He) in H1. now injection H1.
Qed.

Lemma string_of_list_length (l : list ascii) :
  String.length (string_of_list_ascii l) = List.length l.
Proof. induction l as [|c l IH]; simpl; [reflexivity | now rewrite IH]. Qed.

Lemma hex16_length (n : N) : String.length (hex16 n) = 16.
Proof.
  unfold hex16. now rewrite string_of_list_length, length_map, length_rev, length_seq.
Qed.

Lemma hex16_alphabet (n : N) :
  Forall (fun c => In c hex_alphabet) (list_ascii_of_string (hex16 n)).
Proof.
  unfold hex16. rewrite list_ascii_of_string_of_list_ascii.
  apply Forall_forall. intros c Hc. apply in_map_iff in Hc.
  destruct Hc as (k & <- & _). apply hex_digit_alphabet, nibble_lt.
Qed.

Lemma pack_bound_64 (bits : list bool) :
  List.length bits <= 64 -> (pack_msb_first bits < 2 ^ 64)%N.
Proof.
  intros H. eapply N.lt_le_trans; [apply pack_msb_first_bound|].
  apply N.pow_le_mono_r; lia.
Qed.

(** The digits of the hash of at most 64 pixels. *)
Lemma hash_of_pixels_hex16 (pixels : list Z) :
  pixels <> [] -> List.length pixels <= 64 ->
  hash_of_pixels pixels = Some (hex16 (pack_msb_first (above_mean pixels))).
Proof.
  intros Hne Hlen. rewrite (hash_of_pixels_bits pixels Hne). f_equal.
  apply format_016x_hex16, pack_bound_64. now rewrite above_mean_length.
Qed.

(** X4: on 1 to 64 pixels the hash is a string of exactly 16 characters,
    all of them lowercase hexadecimal digits. *)
Theorem perceptual_hash_is_16_hex_digits (pixels : list Z) :
  1 <= List.length pixels <= 64 ->
  exists s,
    hash_of_pixels pixels = Some s /\
    String.length s = 16 /\
    Forall (fun c => In c hex_alphabet) (list_ascii_of_string s).
Proof.
  intros [Hlo Hhi].
  exists (hex16 (pack_msb_first (above_mean pixels))). split; [|split].
  - apply hash_of_pixels_hex16; [|exact Hhi].
    intros E. rewrite E in Hlo. simpl in Hlo. lia.
  - apply hex16_length.
  - apply hex16_alphabet.
Qed.

Lemma perceptual_hash_is_16_hex_digits_witness :
  exists s,
    hash_of_pixels half_pixels = Some s /\
    String.length s = 16 /\
    Forall (fun c => In c hex_alphabet) (list_ascii_of_string s).
Proof.
  apply (perceptual_hash_is_16_hex_digits half_pixels).
  change (List.length half_pixels) with 64. lia.
Defined.

(** ** Invariances of the perceptual hash *)

Lemma sum_map_shift (c : Z) (l : list Z) :
  fold_right Z.add 0%Z (map (Z.add c) l)
  = (fold_right Z.add 0 l + Z.of_nat (List.length l) * c)%Z.
Proof. induction l as [|x l IH]; cbn [map fold_right List.length]; lia. Qed.

Lemma sum_map_scale (k : Z) (l : list Z) :
  fold_right Z.add 0%Z (map (Z.mul k) l) = (k * fold_right Z.add 0 l)%Z.
Proof. induction l as [|x l IH]; cbn [map fold_right]; lia. Qed.

Lemma above_mean_shift (c : Z) (pixels : list Z) :
  above_mean (map (Z.add c) pixels) = above_mean pixels.
Proof.
  unfold above_mean. rewrite map_map, length_map, !sum_fold_right, sum_map_shift.
  apply map_ext. intros v.
  destruct (Z.ltb_spec (fold_right Z.add 0 pixels)
              (Z.of_nat (List.length pixels) * v))%Z;
    [apply Z.ltb_lt | apply Z.ltb_ge]; lia.
Qed.

Lemma above_mean_scale (k : Z) (pixels : list Z) :
  (0 < k)%Z -> above_mean (map (Z.mul k) pixels) = above_mean pixels.
Proof.
  intros Hk.
  unfold above_mean. rewrite map_map, length_map, !sum_fold_right, sum_map_scale.
  apply map_ext. intros v.
  destruct (Z.ltb_spec (fold_right Z.add 0 pixels)
              (Z.of_nat (List.length pixels) * v))%Z;
    [apply Z.ltb_lt | apply Z.ltb_ge]; nia.
Qed.

Lemma hash_of_pixels_above_mean (p q : list Z) :
  List.length p = List.length q -> above_mean p = above_mean q ->
  hash_of_pixels p = hash_of_pixels q.
Proof.
  intros Hlen Hbits. destruct p as [|x p], q as [|y q]; try discriminate Hlen.
  - reflexivity.
  - rewrite !hash_of_pixels_bits by discriminate. now rewrite Hbits.
Qed.

(** X5: adding one constant to every pixel of a grayscale grid, or
    multiplying every pixel by one positive factor, does not change the
    hash, as long as the result is still a grayscale grid. *)
Theorem perceptual_hash_shift_scale_invariant (pixels : list Z) (c k : Z) :
  gray_grid pixels ->
  (gray_grid (map (Z.add c) pixels) ->
   hash_of_pixels (map (Z.add c) pixels) = hash_of_pixels pixels) /\
  ((0 < k)%Z -> gray_grid (map (Z.mul k) pixels) ->
   hash_of_pixels (map (Z.mul k) pixels) = hash_of_pixels pixels).
Proof.
  intros _. split.
  - intros _. apply hash_of_pixels_above_mean.
    + apply length_map.
    + apply above_mean_shift.
  - intros Hk _. apply hash_of_pixels_above_mean.
    + apply length_map.
    + now apply above_mean_scale.
Qed.

Lemma gray_grid_by_computation (pixels : list Z) :
  List.length pixels = 64 ->
  forallb (fun v => (0 <=? v)%Z && (v <=? 255)%Z) pixels = true ->
  gray_grid pixels.
Proof.
  intros Hlen H. split; [exact Hlen|].
  apply Forall_forall. intros v Hv.
  rewrite forallb_forall in H. specialize (H v Hv).
  apply andb_true_iff in H. destruct H as [H1 H2].
  apply Z.leb_le in H1, H2. lia.
Defined.

Lemma perceptual_hash_shift_scale_invariant_witness :
  hash_of_pixels (map (Z.add 5) half_pixels) = hash_of_pixels half_pixels /\
  hash_of_pixels (map (Z.mul 1) half_pixels) = hash_of_pixels half_pixels.
Proof.
  destruct (perceptual_hash_shift_scale_invariant half_pixels 5 1
              (gray_grid_by_computation half_pixels eq_refl eq_refl))
    as [Hshift Hscale].
  split.
  - apply Hshift. apply gray_grid_by_computation; reflexivity.
  - apply Hscale; [lia|]. apply gray_grid_by_computation; reflexivity.
Defined.

(** ** What a perceptual hash determines *)

Lemma nibbles_inj (k : nat) :
  forall n m : N,
    (n < 16 ^ N.of_nat k)%N -> (m < 16 ^ N.of_nat k)%N ->
    (forall j, j < k -> nibble n j = nibble m j) -> n = m.
Proof.
  induction k as [|k IH]; intros n m Hn Hm H.
  - simpl in Hn, Hm. lia.
  - assert (H0 : (n mod 16 = m mod 16)%N).
    { rewrite <- !nibble_zero. apply H. lia. }
    assert (Hdiv : (n / 16 = m / 16)%N).
    { apply IH.
      - now apply div16_lt.
      - now apply div16_lt.
      - intros j Hj. rewrite <- !nibble_succ. apply H. lia. }
    rewrite (N.div_mod n 16), (N.div_mod m 16) by discriminate.
    now rewrite H0, Hdiv.
Qed.

Lemma string_of_list_inj (a b : list ascii) :
  string_of_list_ascii a = string_of_list_ascii b -> a = b.
Proof.
  intros H.
  rewrite <- (list_ascii_of_string_of_list_ascii a),
          <- (list_ascii_of_string_of_list_ascii b).
  now rewrite H.
Qed.

Lemma some_inj {A : Type} (x y : A) : Some x = Some y -> x = y.
Proof. congruence. Qed.

(** Two 64-bit values with the same 16 digits are equal. *)
Lemma hex16_inj (n m : N) :
  (n < 2 ^ 64)%N -> (m < 2 ^ 64)%N -> hex16 n = hex16 m -> n = m.
Proof.
  intros Hn Hm H. unfold hex16 in H. apply string_of_list_inj in H.
  apply (nibbles_inj 16 n m Hn Hm). intros j Hj.
  apply hex_digit_inj; try apply nibble_lt.
  rewrite map_ext_in_iff in H. apply H.
  rewrite <- in_rev. apply in_seq. lia.
Qed.

Lemma pack_msb_first_inj (a : list bool) :
  forall b, List.length a = List.length b ->
            pack_msb_first a = pack_msb_first b -> a = b.
Proof.
  induction a as [|x a IH]; intros [|y b] Hlen H; try discriminate Hlen.
  - reflexivity.
  - injection Hlen as Hlen. cbn [pack_msb_first] in H. rewrite <- Hlen in H.
    pose proof (pack_msb_first_bound a) as Ha.
    pose proof (pack_msb_first_bound b) as Hb. rewrite <- Hlen in Hb.
    destruct x, y; try (exfalso; lia).
    + f_equal. apply IH; [exact Hlen | lia].
    + f_equal. apply IH; [exact Hlen | lia].
Qed.

(** X6: two grids of 64 pixels have the same hash exactly when the same
    pixels of both lie above their respective means. *)
Theorem perceptual_hash_equal_iff_same_bits (p q : list Z) :
  List.length p = 64 -> List.length q = 64 ->
  (hash_of_pixels p = hash_of_pixels q <-> above_mean p = above_mean q).
Proof.
  intros Hp Hq. split.
  - assert (Hpne : p <> []) by (intros E; rewrite E in Hp; discriminate Hp).
    assert (Hqne : q <> []) by (intros E; rewrite E in Hq; discriminate Hq).
    rewrite (hash_of_pixels_hex16 p Hpne), (hash_of_pixels_hex16 q Hqne) by lia.
    intros H. apply some_inj in H.
    apply hex16_inj in H.
    + apply pack_msb_first_inj in H; [exact H|].
      rewrite !above_mean_length. congruence.
    + apply pack_bound_64. rewrite above_mean_length. lia.
    + apply pack_bound_64. rewrite above_mean_length. lia.
  - apply hash_of_pixels_above_mean. congruence.
Qed.

Lemma perceptual_hash_equal_iff_same_bits_witness :
  hash_of_pixels (map (Z.add 1) half_pixels) = hash_of_pixels half_pixels.
Proof.
  apply (perceptual_hash_equal_iff_same_bits (map (Z.add 1) half_pixels)
           half_pixels eq_refl eq_refl).
  reflexivity.
Defined.

Lemma sum_deviations (s n : Z) (l : list Z) :
  fold_right Z.add 0%Z (map (fun v => s - n * v) l)%Z
  = (Z.of_nat (List.length l) * s - n * fold_right Z.add 0 l)%Z.
Proof. induction l as [|x l IH]; cbn [map fold_right List.length]; lia. Qed.

Lemma sum_nonneg (l : list Z) :
  (forall x, In x l -> 0 <= x)%Z -> (0 <= fold_right Z.add 0 l)%Z.
Proof.
  induction l as [|x l IH]; intros H; cbn [fold_right]; [lia|].
  pose proof (H x (or_introl eq_refl)).
  assert (0 <= fold_right Z.add 0 l)%Z by (apply IH; intros y Hy; apply H; now right).
  lia.
Qed.

Lemma sum_zero_all_zero (l : list Z) :
  (forall x, In x l -> 0 <= x)%Z -> fold_right Z.add 0%Z l = 0%Z ->
  forall x, In x l -> x = 0%Z.
Proof.
  induction l as [|y l IH]; intros Hpos Hsum x Hx; [destruct Hx|].
  cbn [fold_right] in Hsum.
  pose proof (Hpos y (or_introl eq_refl)) as Hy.
  assert (Hl : (0 <= fold_right Z.add 0 l)%Z)
    by (apply sum_nonneg; intros z Hz; apply Hpos; now right).
  destruct Hx as [<-|Hx]; [lia|].
  apply IH; trivial; [|lia]. intros z Hz. apply Hpos. now right.
Qed.

(** No pixel above the mean: every pixel is the mean. *)
Lemma none_above_mean_all_equal (l : list Z) :
  (forall v, In v l ->
             (Z.of_nat (List.length l) * v <= fold_right Z.add 0 l)%Z) ->
  forall v, In v l ->
            (Z.of_nat (List.length l) * v = fold_right Z.add 0 l)%Z.
Proof.
  intros H v Hv.
  set (n := Z.of_nat (List.length l)) in *.
  set (s := fold_right Z.add 0%Z l) in *.
  assert (Hdev : forall x, In x (map (fun v => s - n * v)%Z l) -> (0 <= x)%Z).
  { intros x Hx. apply in_map_iff in Hx. destruct Hx as (w & <- & Hw).
    specialize (H w Hw). lia. }
  assert (Hsum : fold_right Z.add 0%Z (map (fun v => s - n * v)%Z l) = 0%Z).
  { rewrite sum_deviations. fold n. fold s. lia. }
  pose proof (sum_zero_all_zero _ Hdev Hsum (s - n * v)%Z) as Hz.
  assert (In (s - n * v)%Z (map (fun v => s - n * v)%Z l))
    by (apply in_map_iff; exists v; tauto).
  specialize (Hz H0). lia.
Qed.

Lemma all_equal_repeat (l : list Z) (v : Z) :
  (forall x, In x l -> x = v) -> l = repeat v (List.length l).
Proof.
  induction l as [|y l IH]; intros H; simpl.
  - reflexivity.
  - rewrite (H y (or_introl eq_refl)). f_equal.
    apply IH. intros x Hx. apply H. now right.
Qed.

Lemma above_mean_In (pixels : list Z) (b : bool) :
  above_mean pixels = repeat b (List.length pixels) ->
  forall v, In v pixels ->
    (fold_right Z.add 0 pixels <? Z.of_nat (List.length pixels) * v)%Z = b.
Proof.
  intros H v Hv. rewrite <- sum_fold_right.
  assert (Hin : In (fold_left Z.add pixels 0 <? Z.of_nat (List.length pixels) * v)%Z
                   (above_mean pixels)).
  { unfold above_mean. apply in_map_iff. exists v. tauto. }
  rewrite H in Hin. now apply repeat_spec in Hin.
Qed.

(** X7: a grid of 64 pixels hashes to sixteen zeros only if all its
    pixels are equal (and every such grid does); and no grid hashes to
    sixteen f, since its pixels cannot all exceed their mean. *)
Theorem perceptual_hash_extremes (pixels : list Z) :
  List.length pixels = 64 ->
  (hash_of_pixels pixels = Some "0000000000000000" <->
   exists v, pixels = repeat v 64) /\
  hash_of_pixels pixels <> Some "ffffffffffffffff".
Proof.
  intros Hlen.
  assert (Hne : pixels <> [])
    by (intros E; rewrite E in Hlen; discriminate Hlen).
  assert (Hhash := hash_of_pixels_hex16 pixels Hne ltac:(lia)).
  assert (Hbound : (pack_msb_first (above_mean pixels) < 2 ^ 64)%N)
    by (apply pack_bound_64; rewrite above_mean_length; lia).
  assert (Hall : forall b,
            hash_of_pixels pixels
            = Some (hex16 (pack_msb_first (repeat b 64))) ->
            above_mean pixels = repeat b (List.length pixels)).
  { intros b H. rewrite Hhash in H. apply some_inj in H.
    apply hex16_inj in H; [|exact Hbound|destruct b; reflexivity].
    rewrite Hlen. apply pack_msb_first_inj; [|exact H].
    now rewrite above_mean_length, repeat_length. }
  split; [split|].
  - intros H. exists (hd 0%Z pixels). rewrite <- Hlen.
    pose proof (above_mean_In pixels false (Hall false H)) as Hbelow.
    assert (Heq := none_above_mean_all_equal pixels
              (fun v Hv => proj1 (Z.ltb_ge _ _) (Hbelow v Hv))).
    apply all_equal_repeat. intros x Hx.
    destruct pixels as [|y l]; [contradiction|]. cbn [hd].
    pose proof (Heq x Hx). pose proof (Heq y (or_introl eq_refl)).
    rewrite Hlen in *. lia.
  - intros [v ->]. apply hash_of_pixels_uniform.
  - intros H.
    pose proof (above_mean_In pixels true (Hall true H)) as Habove.
    destruct pixels as [|y l]; [contradiction|].
    pose proof (Habove y (or_introl eq_refl)) as Hy. apply Z.ltb_lt in Hy.
    assert (Hsumopp : fold_right Z.add 0%Z (map Z.opp (y :: l))
                      = (- fold_right Z.add 0 (y :: l))%Z).
    { clear. induction (y :: l) as [|a t IH]; cbn [map fold_right]; lia. }
    assert (Hle : forall v, In v (map Z.opp (y :: l)) ->
              (Z.of_nat (List.length (map Z.opp (y :: l))) * v
               <= fold_right Z.add 0 (map Z.opp (y :: l)))%Z).
    { intros v Hv. apply in_map_iff in Hv. destruct Hv as (w & <- & Hw).
      rewrite Hsumopp, length_map.
      specialize (Habove w Hw). apply Z.ltb_lt in Habove. lia. }
    pose proof (none_above_mean_all_equal _ Hle (- y)%Z (or_introl eq_refl))
      as Heq.
    rewrite Hsumopp, length_map in Heq. lia.
Qed.

Lemma perceptual_hash_extremes_witness :
  (hash_of_pixels (repeat 7%Z 64) = Some "0000000000000000" <->
   exists v, repeat 7%Z 64 = repeat v 64) /\
  hash_of_pixels (repeat 7%Z 64) <> Some "ffffffffffffffff".
Proof.
  apply (perceptual_hash_extremes (repeat 7%Z 64)). reflexivity.
Defined.

(** ** Inputs that cannot be loaded *)

Section LoadFailure.

Context {PIL : Pillow}.
Variable sha256_hexdigest : list byte -> string.

(** X8: when the input cannot be loaded (an unsupported kind of value, a
    missing file, undecodable data), both hashes are missing, the result is
    flagged unsuccessful, and resizing fails for every size and mode: a
    result with exactly one hash requires an image that loads. *)
Theorem load_failure_gives_no_hash (input : image_input) :
  _load_image_from_input input = None ->
  calculate_image_hashes sha256_hexdigest input
  = {| hashes_image_hash := None;
       hashes_perceptual_hash := None;
       hashes_success := false |} /\
  forall size mode, resize_image input size mode = None.
Proof.
  intros H. split.
  - unfold calculate_image_hashes, calculate_image_hash,
      calculate_image_perceptual_hash.
    now rewrite H.
  - intros size mode. unfold resize_image. now rewrite H.
Qed.

End LoadFailure.

Lemma load_failure_gives_no_hash_witness :
  calculate_image_hashes length_digest (@of_other raster_pillow)
  = {| hashes_image_hash := None;
       hashes_perceptual_hash := None;
       hashes_success := false |} /\
  forall size mode, resize_image (@of_other raster_pillow) size mode = None.
Proof.
  apply (@load_failure_gives_no_hash raster_pillow length_digest).
  reflexivity.
Defined.

(** ** Sniffing and file information *)

Lemma startswith_firstn (signature : list byte) :
  forall (n : nat) (data : list byte),
    List.length signature <= n ->
    startswith (firstn n data) signature = startswith data signature.
Proof.
  induction signature as [|p signature IH]; intros n data Hn.
  - reflexivity.
  - destruct n as [|n]; [simpl in Hn; lia|].
    destruct data as [|d data]; [reflexivity|].
    cbn [firstn startswith]. rewrite IH; [reflexivity|].
    simpl in Hn. lia.
Qed.

Lemma startswith_short (signature data : list byte) :
  List.length data < List.length signature -> startswith data signature = false.
Proof.
  revert data. induction signature as [|p signature IH]; intros data H.
  - simpl in H. lia.
  - destruct data as [|d data]; [reflexivity|].
    cbn [startswith]. rewrite IH; [apply andb_false_r|].
    simpl in H. lia.
Qed.

Section Sniffing.

Variable fs : filesystem.

(** The chain of tests on the content of a readable file. *)
Lemma detect_readable (file_path : string) (entry : fs_entry)
    (content : list byte) :
  fs file_path = Some entry -> read_bytes entry = Some content ->
  detect_mime_type_by_content fs file_path
  = let header := firstn 12 content in
    if startswith header [xff; xd8; xff] then Some "image/jpeg"
    else if startswith header [x89; x50; x4e; x47; x0d; x0a; x1a; x0a]
    then Some "image/png"
    else if startswith header (list_byte_of_string "GIF87a")
            || startswith header (list_byte_of_string "GIF89a")
    then Some "image/gif"
    else if startswith header (list_byte_of_string "RIFF")
            && bytes_in (list_byte_of_string "WEBP") header
    then Some "image/webp"
    else if startswith header (list_byte_of_string "BM") then Some "image/bmp"
    else if startswith header [x00; x00; x01; x00] then Some "image/x-icon"
    else Some "application/octet-stream".
Proof.
  intros Hstat Hread. unfold detect_mime_type_by_content.
  rewrite Hstat, Hread. cbv zeta.
  rewrite firstn_firstn. change (Nat.min 12 32) with 12.
  rewrite !(startswith_firstn _ 32) by (simpl; lia).
  rewrite !(startswith_firstn _ 12) by (simpl; lia).
  reflexivity.
Qed.

(** X9: sniffing returns nothing exactly when the file cannot be opened
    and read; otherwise it returns one of seven types, and
    [application/octet-stream] for a file of fewer than two bytes. *)
Theorem detect_mime_type_range (file_path : string) :
  (detect_mime_type_by_content fs file_path = None <->
   fs file_path = None \/
   exists entry, fs file_path = Some entry /\ read_bytes entry = None) /\
  (forall m, detect_mime_type_by_content fs file_path = Some m ->
     In m ["image/jpeg"; "image/png"; "image/gif"; "image/webp";
           "image/bmp"; "image/x-icon"; "application/octet-stream"]) /\
  (forall entry content,
     fs file_path = Some entry -> read_bytes entry = Some content ->
     List.length content < 2 ->
     detect_mime_type_by_content fs file_path = Some "application/octet-stream").
Proof.
  split; [|split].
  - destruct (fs file_path) as [entry|] eqn:Hstat.
    + destruct (read_bytes entry) as [content|] eqn:Hread.
      * rewrite (detect_readable file_path entry content Hstat Hread).
        split.
        -- cbv zeta.
           repeat match goal with
                  | |- context [if ?c then _ else _] => destruct c
                  end; discriminate.
        -- intros [H|(e & He & Hnone)]; [discriminate H|].
           injection He as <-. congruence.
      * unfold detect_mime_type_by_content. rewrite Hstat, Hread.
        split; [|reflexivity]. intros _. right. now exists entry.
    + unfold detect_mime_type_by_content. rewrite Hstat. tauto.
  - intros m H.
    destruct (fs file_path) as [entry|] eqn:Hstat;
      [|unfold detect_mime_type_by_content in H; rewrite Hstat in H;
        discriminate H].
    destruct (read_bytes entry) as [content|] eqn:Hread;
      [|unfold detect_mime_type_by_content in H; rewrite Hstat, Hread in H;
        discriminate H].
    rewrite (detect_readable file_path entry content Hstat Hread) in H.
    cbv zeta in H.
    repeat match type of H with
           | context [if ?c then _ else _] => destruct c
           end;
      injection H as <-; simpl; tauto.
  - intros entry content Hstat Hread Hlen.
    rewrite (detect_readable file_path entry content Hstat Hread). cbv zeta.
    assert (Hshort : List.length (firstn 12 content) < 2).
    { rewrite length_firstn. lia. }
    revert Hshort. generalize (firstn 12 content). intros header Hshort.
    rewrite !startswith_short by (simpl; lia).
    reflexivity.
Qed.

(** X10: sniffing reads no further than the first 12 bytes: two readable
    files that agree on them get the same type. *)
Theorem detect_mime_type_first_12_bytes
    (path1 path2 : string) (entry1 entry2 : fs_entry)
    (content1 content2 : list byte) :
  fs path1 = Some entry1 -> read_bytes entry1 = Some content1 ->
  fs path2 = Some entry2 -> read_bytes entry2 = Some content2 ->
  firstn 12 content1 = firstn 12 content2 ->
  detect_mime_type_by_content fs path1 = detect_mime_type_by_content fs path2.
Proof.
  intros H1 R1 H2 R2 E.
  rewrite (detect_readable path1 entry1 content1 H1 R1).
  rewrite (detect_readable path2 entry2 content2 H2 R2).
  now rewrite E.
Qed.

End Sniffing.

Section MissingFields.

Variable fs : filesystem.
Variable guess_type : string -> option string.

(** X11: the size is missing exactly when the path does not exist, and is
    otherwise the size reported for it; the mime type is missing exactly
    when the path does not exist, or when its name has no known type and
    the file cannot be read. *)
Theorem get_file_info_missing_fields (file_path : string) :
  let info := get_file_info fs guess_type file_path in
  (info_file_size info = None <-> fs file_path = None) /\
  (forall entry, fs file_path = Some entry ->
                 info_file_size info = Some (st_size entry)) /\
  (info_mime_type info = None <->
   fs file_path = None \/
   (truthy (guess_type file_path) = false /\
    exists entry, fs file_path = Some entry /\ read_bytes entry = None)).
Proof.
  cbv zeta. pose proof (proj1 (detect_mime_type_range fs file_path)) as Hdetect.
  unfold get_file_info.
  destruct (fs file_path) as [entry|] eqn:Hstat; cbn [info_file_size info_mime_type].
  - split; [split; discriminate|]. split.
    + intros e He. now injection He as <-.
    + destruct (truthy (guess_type file_path)) eqn:Hguess; cbn [negb].
      * split.
        -- intros H. unfold truthy in Hguess. rewrite H in Hguess.
           discriminate Hguess.
        -- intros [H|[H _]]; discriminate H.
      * rewrite Hdetect. split.
        -- intros [H|H]; [discriminate H|]. right. now split.
        -- intros [H|[_ H]]; [discriminate H|]. now right.
  - split; [tauto|]. split; [discriminate|]. tauto.
Qed.

End MissingFields.

Lemma detect_mime_type_range_witness :
  detect_mime_type_by_content
    (fun _ => Some {| st_size := 1; read_bytes := Some [xff] |}) "x"
  = Some "application/octet-stream".
Proof.
  apply (proj2 (proj2 (detect_mime_type_range
                         (fun _ => Some {| st_size := 1; read_bytes := Some [xff] |})
                         "x"))
           {| st_size := 1; read_bytes := Some [xff] |} [xff]);
    [reflexivity | reflexivity | simpl; lia].
Defined.

Lemma detect_mime_type_first_12_bytes_witness :
  detect_mime_type_by_content two_bitmaps "a"
  = detect_mime_type_by_content two_bitmaps "b".
Proof.
  apply (detect_mime_type_first_12_bytes two_bitmaps "a" "b"
           {| st_size := 13; read_bytes := Some (bmp_head ++ [x01]) |}
           {| st_size := 13; read_bytes := Some (bmp_head ++ [x02]) |}
           (bmp_head ++ [x01]) (bmp_head ++ [x02])); reflexivity.
Defined.

Lemma get_file_info_missing_fields_witness :
  info_file_size (get_file_info sample_fs guess_by_suffix "nowhere") = None /\
  info_file_size (get_file_info sample_fs guess_by_suffix "cat.png") = Some 2%Z.
Proof.
  split.
  - apply (proj1 (get_file_info_missing_fields sample_fs guess_by_suffix
                    "nowhere")). reflexivity.
  - apply (proj1 (proj2 (get_file_info_missing_fields sample_fs guess_by_suffix
                           "cat.png"))
             {| st_size := 2; read_bytes := Some [x00; x01] |}).
    reflexivity.
Defined.

(** ** Hashing a file by chunks *)

Lemma firstn_nil_inv {A : Type} (size : nat) (l : list A) :
  0 < size -> firstn size l = [] -> l = [].
Proof.
  intros Hsize H. destruct size as [|size]; [lia|].
  destruct l as [|x l]; [reflexivity | discriminate H].
Qed.

(** The loop feeds the whole content to the hash object, in order. *)
Lemma update_by_chunks_whole (size : nat) :
  0 < size ->
  forall (fuel : nat) (f hash_sha256 : list byte),
    List.length f < fuel ->
    update_by_chunks fuel size f hash_sha256 = Some (hash_sha256 ++ f).
Proof.
  intros Hsize. induction fuel as [|fuel IH]; intros f h Hfuel; [lia|].
  cbn [update_by_chunks].
  destruct (firstn size f) as [|b chunk] eqn:E.
  - apply (firstn_nil_inv size f Hsize) in E. subst f. now rewrite app_nil_r.
  - rewrite <- E. rewrite IH.
    + now rewrite <- app_assoc, firstn_skipn.
    + rewrite length_skipn.
      assert (List.length f <> 0) by (destruct f; [destruct size|]; discriminate).
      lia.
Qed.

Section FileHashing.

Variable fs : filesystem.
Variable sha256_hexdigest : list byte -> string.

(** X12: for a file that can be read, whatever its size, the result is the
    digest of its whole content: the 4096-byte chunks cover it in order,
    without loss or repetition.  The result is missing exactly when the
    file does not exist or cannot be read. *)
Theorem calculate_file_hash_whole_content (file_path : string) :
  (forall entry content,
      fs file_path = Some entry -> read_bytes entry = Some content ->
      calculate_file_hash fs sha256_hexdigest file_path
      = Some (sha256_hexdigest content)) /\
  (calculate_file_hash fs sha256_hexdigest file_path = None <->
   fs file_path = None \/
   exists entry, fs file_path = Some entry /\ read_bytes entry = None).
Proof.
  assert (Hread : forall entry content,
            fs file_path = Some entry -> read_bytes entry = Some content ->
            calculate_file_hash fs sha256_hexdigest file_path
            = Some (sha256_hexdigest content)).
  { intros entry content Hstat Hcontent. unfold calculate_file_hash.
    rewrite Hstat, Hcontent, update_by_chunks_whole by lia.
    reflexivity. }
  split; [exact Hread|].
  destruct (fs file_path) as [entry|] eqn:Hstat.
  - destruct (read_bytes entry) as [content|] eqn:Hcontent.
    + rewrite (Hread entry content eq_refl Hcontent). split; [discriminate|].
      intros [H|(e & He & Hnone)]; [discriminate H|].
      injection He as <-. congruence.
    + unfold calculate_file_hash. rewrite Hstat, Hcontent.
      split; [|reflexivity]. intros _. right. now exists entry.
  - unfold calculate_file_hash. rewrite Hstat. tauto.
Qed.

End FileHashing.

Lemma calculate_file_hash_whole_content_witness :
  calculate_file_hash sample_fs length_digest "upload_0001"
  = Some (length_digest [xff; xd8; xff; xe0; x00]).
Proof.
  apply (proj1 (calculate_file_hash_whole_content sample_fs length_digest
                  "upload_0001")
           {| st_size := 5; read_bytes := Some [xff; xd8; xff; xe0; x00] |});
    reflexivity.
Defined.

(** ** File information for any input *)

Section InputInformation.

Context {PIL : Pillow}.
Variable fs : filesystem.
Variable guess_type : string -> option string.

(** X13: for an input that is not the path of an existing file (image
    objects, bytes, streams, missing paths) the information is no size and
    the type [image/jpeg], whatever the data holds; a size is recorded
    exactly for existing paths, and the type is missing exactly for an
    existing path whose name has no known type and whose file cannot be
    read. *)
Theorem file_info_for_input_fields (input : image_input) :
  let info := _get_file_info_for_input fs guess_type input in
  ((forall path, input = of_str path -> fs path = None) ->
   info = {| info_file_size := None; info_mime_type := Some "image/jpeg" |}) /\
  (info_file_size info <> None <->
   exists path entry, input = of_str path /\ fs path = Some entry) /\
  (info_mime_type info = None <->
   exists path entry,
     input = of_str path /\ fs path = Some entry /\
     truthy (guess_type path) = false /\ read_bytes entry = None).
Proof.
  cbv zeta. unfold _get_file_info_for_input.
  destruct input as [path|img|data|data|];
    try (split; [reflexivity|]; split;
         [ split; [intros H; now contradiction H
                  | intros (p & e & H & _); discriminate H]
         | split; [discriminate | intros (p & e & H & _); discriminate H] ]).
  destruct (fs path) as [entry|] eqn:Hstat.
  - pose proof (get_file_info_missing_fields fs guess_type path)
      as (Hsize & _ & Hmime). cbv zeta in Hsize, Hmime.
    split; [|split].
    + intros H. specialize (H path eq_refl). congruence.
    + split.
      * intros _. now exists path, entry.
      * intros _ H. apply Hsize in H. congruence.
    + rewrite Hmime. split.
      * intros [H|(Hguess & e & He & Hnone)]; [congruence|].
        exists path, e. repeat split; trivial.
      * intros (p & e & Hp & He & Hguess & Hnone). injection Hp as <-.
        right. split; [exact Hguess|]. exists e. split; congruence.
  - split; [reflexivity|]. split.
    + split; [intros H; now contradiction H|].
      intros (p & e & Hp & He). injection Hp as <-. congruence.
    + split; [discriminate|].
      intros (p & e & Hp & He & _). injection Hp as <-. congruence.
Qed.

End InputInformation.

Lemma file_info_for_input_fields_witness :
  _get_file_info_for_input sample_fs guess_by_suffix
    (@of_bytes raster_pillow [x89; x50; x4e; x47; x0d; x0a; x1a; x0a])
  = {| info_file_size := None; info_mime_type := Some "image/jpeg" |}.
Proof.
  apply (proj1 (@file_info_for_input_fields raster_pillow sample_fs
                  guess_by_suffix
                  (@of_bytes raster_pillow
                     [x89; x50; x4e; x47; x0d; x0a; x1a; x0a]))).
  intros path H. discriminate H.
Defined.

(** ** More on the groups of duplicates *)

Lemma bucket_cons (h : option string) (m : Images_metadata)
    (l : list Images_metadata) :
  bucket h (m :: l)
  = if key_eqb (image_hash m) h then m :: bucket h l else bucket h l.
Proof. reflexivity. Qed.

Lemma bucket_present (h : option string) (l : list Images_metadata) :
  In h (map image_hash l) -> 1 <= List.length (bucket h l).
Proof.
  intros Hin. apply in_map_iff in Hin. destruct Hin as (m & Hm & Hin).
  assert (Hb : In m (bucket h l)) by (apply bucket_In; now split).
  destruct (bucket h l); [destruct Hb | simpl; lia].
Qed.

(** Distinct fingerprints: no bucket with two rows. *)
Lemma NoDup_buckets (l : list Images_metadata) :
  NoDup (map image_hash l) <-> forall h, List.length (bucket h l) <= 1.
Proof.
  induction l as [|m l IH]; cbn [map].
  - split; [intros _ h; simpl; lia | constructor].
  - split.
    + intros Hnd h. inversion Hnd as [|k ks Hnotin Hnd']. subst.
      rewrite bucket_cons. destruct (key_eqb (image_hash m) h) eqn:E.
      * apply key_eqb_eq in E. subst h.
        rewrite (bucket_absent _ _ Hnotin). simpl. lia.
      * now apply IH.
    + intros H. constructor.
      * intros Hin. apply bucket_present in Hin.
        specialize (H (image_hash m)).
        rewrite bucket_cons, key_eqb_refl in H. simpl in H. lia.
      * apply IH. intros h. specialize (H h). rewrite bucket_cons in H.
        destruct (key_eqb (image_hash m) h); simpl in H; lia.
Qed.

(** X14: the query returns no group exactly when the fingerprints of the
    rows are pairwise distinct, which is what the unique constraint on
    [image_hash] enforces. *)
Theorem no_duplicates_iff_distinct (l : list Images_metadata) :
  find_duplicate_images l = [] <-> NoDup (map image_hash l).
Proof.
  rewrite find_duplicate_images_groups, NoDup_buckets. split.
  - intros H h.
    destruct (Nat.leb_spec 2 (List.length (bucket h l))) as [Hle|Hlt]; [|lia].
    exfalso.
    assert (Hin : In {| dup_image_hash := h;
                        dup_count := List.length (bucket h l);
                        dup_images := bucket h l |} (duplicate_groups l)).
    { apply duplicate_groups_In. exists h. repeat split; trivial.
      apply bucket_populated. lia. }
    rewrite H in Hin. destruct Hin.
  - intros H. destruct (duplicate_groups l) as [|g gs] eqn:E; [reflexivity|].
    assert (Hin : In g (duplicate_groups l)) by (rewrite E; now left).
    apply duplicate_groups_In in Hin. destruct Hin as (h & _ & Hle & _).
    specialize (H h). lia.
Qed.

Lemma no_duplicates_iff_distinct_witness :
  find_duplicate_images catalog_h = [].
Proof.
  apply (proj2 (no_duplicates_iff_distinct catalog_h)).
  repeat constructor; simpl; intuition discriminate.
Defined.

(** X15: the groups are disjoint sets of input rows: every member of a
    group is a row of the input, and a row is a member of at most one
    group. *)
Theorem duplicate_groups_disjoint (l : list Images_metadata)
    (g1 g2 : duplicate_group) (m : Images_metadata) :
  In g1 (find_duplicate_images l) -> In m (dup_images g1) ->
  In m l /\
  (In g2 (find_duplicate_images l) -> In m (dup_images g2) -> g1 = g2).
Proof.
  rewrite find_duplicate_images_groups. intros Hg1 Hm1.
  apply duplicate_groups_In in Hg1. destruct Hg1 as (k1 & _ & _ & ->).
  cbn [dup_images] in Hm1. apply bucket_In in Hm1. destruct Hm1 as [Hin <-].
  split; [exact Hin|].
  intros Hg2 Hm2.
  apply duplicate_groups_In in Hg2. destruct Hg2 as (k2 & _ & _ & ->).
  cbn [dup_images] in Hm2. apply bucket_In in Hm2. destruct Hm2 as [_ <-].
  reflexivity.
Qed.

Lemma duplicate_groups_disjoint_witness :
  In (row 2 (Some a64) None) catalog_abc.
Proof.
  apply (duplicate_groups_disjoint catalog_abc
           {| dup_image_hash := Some a64; dup_count := 3;
              dup_images := [row 1 (Some a64) None; row 2 (Some a64) None;
                             row 4 (Some a64) None] |}
           {| dup_image_hash := Some a64; dup_count := 3;
              dup_images := [row 1 (Some a64) None; row 2 (Some a64) None;
                             row 4 (Some a64) None] |}
           (row 2 (Some a64) None)).
  - vm_compute. left. reflexivity.
  - simpl. tauto.
Defined.

(** X16: the groups come in the order in which their fingerprints first
    occur in the input. *)
Theorem duplicate_groups_first_seen_order (l : list Images_metadata) :
  map dup_image_hash (find_duplicate_images l)
  = filter (fun h => (2 <=? List.length (bucket h l))%nat)
           (first_seen (map image_hash l)).
Proof.
  rewrite find_duplicate_images_groups. apply duplicate_groups_keys.
Qed.

(** ** More on the groups of similar images *)

Lemma star_shift (x : Images_metadata) (l : list Images_metadata)
    (threshold : Z) (i : nat) (m : Images_metadata) :
  star (x :: l) threshold (S i) m = star l threshold i m.
Proof. reflexivity. Qed.

Lemma stars_shift (x : Images_metadata) (l : list Images_metadata)
    (threshold : Z) (later : list Images_metadata) :
  forall start,
    flat_map (fun im => star (x :: l) threshold (fst im) (snd im))
             (enumerate later (S start))
    = flat_map (fun im => star l threshold (fst im) (snd im))
               (enumerate later start).
Proof.
  induction later as [|m later IH]; intros start.
  - reflexivity.
  - cbn [enumerate flat_map fst snd]. now rewrite star_shift, IH.
Qed.

(** The groups of a list: the group anchored at its first row, if any,
    then the groups of the rest. *)
Lemma find_similar_images_cons (x : Images_metadata)
    (l : list Images_metadata) (threshold : Z) :
  find_similar_images (x :: l) threshold
  = star (x :: l) threshold 0 x ++ find_similar_images l threshold.
Proof.
  rewrite !find_similar_images_stars.
  cbn [enumerate flat_map fst snd]. now rewrite stars_shift.
Qed.

Lemma star_head (x : Images_metadata) (l : list Images_metadata)
    (threshold : Z) :
  star (x :: l) threshold 0 x
  = if truthy (perceptual_hash x) then
      match filter (similar_to x threshold) l with
      | [] => []
      | members =>
          [{| sim_threshold := threshold;
              sim_count := S (List.length members);
              sim_images := x :: members |}]
      end
    else [].
Proof.
  unfold star. cbn [Nat.add skipn].
  destruct (truthy (perceptual_hash x)); cbn [negb]; [|reflexivity].
  destruct (filter (similar_to x threshold) l); reflexivity.
Qed.

Lemma similar_to_sound (a m : Images_metadata) (threshold : Z) :
  similar_to a threshold m = true ->
  truthy (perceptual_hash m) = true /\
  String.length (str_of (perceptual_hash m))
  = String.length (str_of (perceptual_hash a)) /\
  exists d,
    calculate_hamming_distance (str_of (perceptual_hash a))
                               (str_of (perceptual_hash m)) = Finite d /\
    (Z.of_nat d <= threshold)%Z.
Proof.
  unfold similar_to, row_distance. intros H.
  apply andb_true_iff in H. destruct H as [Ht Hd]. split; [exact Ht|].
  destruct (Nat.eq_dec (String.length (str_of (perceptual_hash a)))
                       (String.length (str_of (perceptual_hash m)))) as [E|E].
  - split; [now symmetry|].
    rewrite (hamming_equal_length _ _ E) in *.
    eexists. split; [reflexivity|]. now apply Z.leb_le in Hd.
  - rewrite (hamming_different_length _ _ E) in Hd. discriminate Hd.
Qed.

(** X17: every returned group records the threshold and its size, starts
    with an anchor that has a fingerprint and has at least one more member;
    every further member is a row of the input with a fingerprint of the
    same length as the anchor's, at a distance from it that is a number no
    greater than the threshold. *)
Theorem similar_group_sound (l : list Images_metadata) (threshold : Z)
    (g : similar_group) :
  In g (find_similar_images l threshold) ->
  exists anchor members,
    sim_images g = anchor :: members /\ members <> [] /\
    sim_count g = S (List.length members) /\
    sim_threshold g = threshold /\
    In anchor l /\ truthy (perceptual_hash anchor) = true /\
    forall m, In m members ->
      In m l /\ truthy (perceptual_hash m) = true /\
      String.length (str_of (perceptual_hash m))
      = String.length (str_of (perceptual_hash anchor)) /\
      exists d,
        calculate_hamming_distance (str_of (perceptual_hash anchor))
                                   (str_of (perceptual_hash m)) = Finite d /\
        (Z.of_nat d <= threshold)%Z.
Proof.
  induction l as [|x l IH]; intros Hg; [destruct Hg|].
  rewrite find_similar_images_cons, star_head in Hg.
  apply in_app_or in Hg. destruct Hg as [Hg|Hg].
  - destruct (truthy (perceptual_hash x)) eqn:Hx; [|destruct Hg].
    destruct (filter (similar_to x threshold) l) as [|m0 ms] eqn:E;
      [destruct Hg|].
    destruct Hg as [<-|[]].
    exists x, (m0 :: ms). cbn [sim_images sim_count sim_threshold].
    repeat split; trivial; try discriminate; try (now left).
    + right. rewrite <- E in H. apply filter_In in H. tauto.
    + rewrite <- E in H. apply filter_In in H.
      now apply (similar_to_sound x m threshold).
    + rewrite <- E in H. apply filter_In in H.
      now apply (similar_to_sound x m threshold).
    + rewrite <- E in H. apply filter_In in H.
      now apply (similar_to_sound x m threshold).
  - destruct (IH Hg) as (anchor & members & H1 & H2 & H3 & H4 & H5 & H6 & H7).
    exists anchor, members. repeat split; trivial; try (now right).
    + right. now apply H7.
    + now apply H7.
    + now apply H7.
    + now apply H7.
Qed.

Lemma similar_group_sound_witness :
  exists anchor members,
    [row 2 (Some b64) (Some h1); row 3 (Some "c") (Some h2)]
    = anchor :: members /\ members <> [].
Proof.
  destruct (similar_group_sound catalog_h 2
              {| sim_threshold := 2; sim_count := 2;
                 sim_images := [row 2 (Some b64) (Some h1);
                                row 3 (Some "c") (Some h2)] |})
    as (anchor & members & H1 & H2 & _).
  - vm_compute. right. left. reflexivity.
  - exists anchor, members. split; [exact H1 | exact H2].
Defined.

Lemma filter_none {A : Type} (p : A -> bool) (l : list A) :
  (forall x, In x l -> p x = false) -> filter p l = [].
Proof.
  induction l as [|x l IH]; intros H; simpl.
  - reflexivity.
  - rewrite (H x (or_introl eq_refl)). apply IH.
    intros y Hy. apply H. now right.
Qed.

(** X18: with a negative threshold no group is returned, whatever the
    rows: no distance is below zero. *)
Theorem negative_threshold_no_group (l : list Images_metadata) (threshold : Z) :
  (threshold < 0)%Z -> find_similar_images l threshold = [].
Proof.
  intros Ht. induction l as [|x l IH]; [reflexivity|].
  rewrite find_similar_images_cons, star_head, IH, app_nil_r.
  destruct (truthy (perceptual_hash x)); [|reflexivity].
  rewrite filter_none; [reflexivity|].
  intros m _. unfold similar_to.
  destruct (row_distance x m) as [d|]; cbn [distance_le].
  - assert ((Z.of_nat d <=? threshold)%Z = false) as -> by (apply Z.leb_gt; lia).
    apply andb_false_r.
  - apply andb_false_r.
Qed.

Lemma negative_threshold_no_group_witness :
  find_similar_images catalog_h (-1) = [].
Proof. apply (negative_threshold_no_group catalog_h (-1)). lia. Defined.

(** X19: on an empty table no group is returned, and on a table with
    rows there are strictly fewer groups than rows: each row anchors at
    most one group and the last row anchors none. *)
Theorem fewer_groups_than_rows (l : list Images_metadata) (threshold : Z) :
  find_similar_images [] threshold = [] /\
  (l <> [] ->
   List.length (find_similar_images l threshold) < List.length l).
Proof.
  split; [reflexivity|].
  induction l as [|x l IH]; intros Hne; [contradiction|].
  rewrite find_similar_images_cons, star_head, length_app.
  destruct l as [|y l].
  - destruct (truthy (perceptual_hash x)); simpl; lia.
  - assert (Hstar :
      List.length
        (if truthy (perceptual_hash x)
         then match filter (similar_to x threshold) (y :: l) with
              | [] => []
              | members =>
                  [{| sim_threshold := threshold;
                      sim_count := S (List.length members);
                      sim_images := x :: members |}]
              end
         else []) <= 1).
    { destruct (truthy (perceptual_hash x)); [|simpl; lia].
      destruct (filter (similar_to x threshold) (y :: l)); simpl; lia. }
    assert (Htail : List.length (find_similar_images (y :: l) threshold)
                    < List.length (y :: l)) by (apply IH; discriminate).
    cbn [List.length] in *. lia.
Qed.

Lemma fewer_groups_than_rows_witness :
  List.length (find_similar_images catalog_h 2) < List.length catalog_h.
Proof.
  apply (proj2 (fewer_groups_than_rows catalog_h 2)). discriminate.
Defined.

(** X20: with threshold 0 the members of a group all carry the
    fingerprint of its anchor: the scan then groups exact matches. *)
Theorem zero_threshold_exact_matches (l : list Images_metadata)
    (g : similar_group) (m : Images_metadata) :
  In g (find_similar_images l 0) -> In m (sim_images g) ->
  perceptual_hash m = perceptual_hash (hd m (sim_images g)).
Proof.
  induction l as [|x l IH]; intros Hg Hm; [destruct Hg|].
  rewrite find_similar_images_cons, star_head in Hg.
  apply in_app_or in Hg. destruct Hg as [Hg|Hg]; [|now apply IH].
  destruct (truthy (perceptual_hash x)) eqn:Hx; [|destruct Hg].
  destruct (filter (similar_to x 0) l) as [|m0 ms] eqn:E; [destruct Hg|].
  destruct Hg as [<-|[]]. cbn [sim_images hd] in *.
  destruct Hm as [<-|Hm]; [reflexivity|].
  rewrite <- E in Hm. apply filter_In in Hm. destruct Hm as [_ Hm].
  destruct (similar_to_sound x m 0 Hm) as (Htm & Hlen & d & Hd & Hle).
  assert (d = 0) by lia. subst d.
  rewrite (hamming_equal_length _ _ (eq_sym Hlen)) in Hd.
  injection Hd as Hd.
  apply mismatches_zero_eq in Hd; [|now symmetry].
  destruct (perceptual_hash x) as [sx|]; [|discriminate Hx].
  destruct (perceptual_hash m) as [sm|]; [|discriminate Htm].
  simpl in Hd. now subst.
Qed.

Lemma zero_threshold_exact_matches_witness :
  perceptual_hash (row 3 None (Some h1))
  = perceptual_hash
      (hd (row 3 None (Some h1))
          [row 1 None (Some h1); row 3 None (Some h1)]).
Proof.
  apply (zero_threshold_exact_matches
           [row 1 None (Some h1); row 2 None (Some h2); row 3 None (Some h1)]
           {| sim_threshold := 0; sim_count := 2;
              sim_images := [row 1 None (Some h1); row 3 None (Some h1)] |}
           (row 3 None (Some h1))).
  - vm_compute. left. reflexivity.
  - simpl. tauto.
Defined.

Lemma similar_to_monotone (a m : Images_metadata) (t t' : Z) :
  (t <= t')%Z -> similar_to a t m = true -> similar_to a t' m = true.
Proof.
  unfold similar_to. intros Ht H.
  apply andb_true_iff in H. destruct H as [H1 H2].
  rewrite H1. cbn [andb].
  destruct (row_distance a m) as [d|]; cbn [distance_le] in *; [|discriminate H2].
  apply Z.leb_le in H2. apply Z.leb_le. lia.
Qed.

(** X21: raising the threshold loses nothing: every group returned for a
    threshold has, for any greater threshold, a group with the same anchor
    that contains all its members. *)
Theorem similar_groups_monotone (l : list Images_metadata) (t t' : Z)
    (g : similar_group) :
  (t <= t')%Z -> In g (find_similar_images l t) ->
  exists g' anchor members members',
    In g' (find_similar_images l t') /\
    sim_images g = anchor :: members /\
    sim_images g' = anchor :: members' /\
    incl members members'.
Proof.
  intros Ht. induction l as [|x l IH]; intros Hg; [destruct Hg|].
  rewrite find_similar_images_cons, star_head in Hg.
  apply in_app_or in Hg. destruct Hg as [Hg|Hg].
  - destruct (truthy (perceptual_hash x)) eqn:Hx; [|destruct Hg].
    destruct (filter (similar_to x t) l) as [|m0 ms] eqn:E; [destruct Hg|].
    destruct Hg as [<-|[]].
    assert (Hincl : incl (m0 :: ms) (filter (similar_to x t') l)).
    { intros m Hm. rewrite <- E in Hm. apply filter_In in Hm.
      apply filter_In. split; [tauto|].
      now apply (similar_to_monotone x m t t' Ht). }
    destruct (filter (similar_to x t') l) as [|m0' ms'] eqn:E'.
    + destruct (Hincl m0 (or_introl eq_refl)).
    + exists {| sim_threshold := t';
                sim_count := S (List.length (m0' :: ms'));
                sim_images := x :: m0' :: ms' |}, x, (m0 :: ms), (m0' :: ms').
      repeat split; trivial.
      rewrite find_similar_images_cons, star_head, Hx, E'.
      now left.
  - destruct (IH Hg) as (g' & anchor & members & members' & H1 & H2 & H3 & H4).
    exists g', anchor, members, members'. repeat split; trivial.
    rewrite find_similar_images_cons. apply in_or_app. now right.
Qed.

Lemma similar_groups_monotone_witness :
  exists g' anchor members members',
    In g' (find_similar_images catalog_h 5) /\
    [row 2 (Some b64) (Some h1); row 3 (Some "c") (Some h2)]
    = anchor :: members /\
    sim_images g' = anchor :: members' /\
    incl members members'.
Proof.
  apply (similar_groups_monotone catalog_h 2 5
           {| sim_threshold := 2; sim_count := 2;
              sim_images := [row 2 (Some b64) (Some h1);
                             row 3 (Some "c") (Some h2)] |}).
  - lia.
  - vm_compute. right. left. reflexivity.
Defined.

Lemma filter_similar_to_present (x : Images_metadata) (threshold : Z)
    (l : list Images_metadata) :
  filter (similar_to x threshold)
         (filter (fun m => truthy (perceptual_hash m)) l)
  = filter (similar_to x threshold) l.
Proof.
  induction l as [|m l IH]; [reflexivity|].
  cbn [filter]. destruct (truthy (perceptual_hash m)) eqn:Hm.
  - cbn [filter]. now rewrite IH.
  - rewrite IH. unfold similar_to at 2. now rewrite Hm.
Qed.

Lemma find_similar_images_present (l : list Images_metadata) (threshold : Z) :
  find_similar_images l threshold
  = find_similar_images (filter (fun m => truthy (perceptual_hash m)) l)
                        threshold.
Proof.
  induction l as [|x l IH]; [reflexivity|].
  rewrite find_similar_images_cons, star_head. cbn [filter].
  destruct (truthy (perceptual_hash x)) eqn:Hx.
  - rewrite find_similar_images_cons, star_head, Hx.
    now rewrite filter_similar_to_present, <- IH.
  - exact IH.
Qed.

(** X22: on any rows the query is the anchor scan of the rows that have a
    perceptual fingerprint: dropping the rows without one beforehand
    changes nothing. *)
Theorem find_similar_images_ignores_missing
    (l : list Images_metadata) (threshold : Z) :
  let present := filter (fun m => truthy (perceptual_hash m)) l in
  find_similar_images l threshold = find_similar_images present threshold /\
  find_similar_images l threshold = anchor_scan present threshold.
Proof.
  cbv zeta. split.
  - apply find_similar_images_present.
  - rewrite find_similar_images_present.
    apply find_similar_images_anchor_scan.
    apply Forall_forall. intros m Hm. apply filter_In in Hm. tauto.
Qed.

(** ** Characters compared, bits meant *)

Lemma hex_digits_of_succ (k : nat) (n : N) :
  hex_digits_of (S k) n
  = String (hex_digit (nibble n k)) (hex_digits_of k n).
Proof.
  unfold hex_digits_of. rewrite seq_S. cbn [Nat.add].
  rewrite rev_app_distr. reflexivity.
Qed.

Lemma pow2_4k (k : nat) : (2 ^ N.of_nat (4 * k) = 16 ^ N.of_nat k)%N.
Proof.
  rewrite Nat2N.inj_mul. change (N.of_nat 4) with 4%N.
  now rewrite N.pow_mul_r.
Qed.

Lemma pack_four (b3 b2 b1 b0 : bool) (rest : list bool) (k : nat) :
  List.length rest = 4 * k ->
  pack_msb_first (b3 :: b2 :: b1 :: b0 :: rest)
  = (nibble_value b3 b2 b1 b0 * 16 ^ N.of_nat k + pack_msb_first rest)%N.
Proof.
  intros Hlen. cbn [pack_msb_first List.length].
  rewrite !Nat2N.inj_succ, !N.pow_succ_r', Hlen, pow2_4k.
  unfold nibble_value. destruct b3, b2, b1, b0; cbn [N.b2n]; lia.
Qed.

Lemma nibble_top (v r : N) (k : nat) :
  (v < 16)%N -> (r < 16 ^ N.of_nat k)%N ->
  nibble (v * 16 ^ N.of_nat k + r) k = v.
Proof.
  intros Hv Hr. rewrite nibble_div.
  rewrite N.div_add_l by (apply N.pow_nonzero; discriminate).
  rewrite (N.div_small r) by exact Hr.
  rewrite N.add_0_r. now apply N.mod_small.
Qed.

Lemma nibble_below (v r : N) (k j : nat) :
  j < k -> nibble (v * 16 ^ N.of_nat k + r) j = nibble r j.
Proof.
  intros Hj. rewrite !nibble_div.
  replace k with (S (k - S j) + j) by lia.
  rewrite Nat2N.inj_add, N.pow_add_r, N.mul_assoc.
  rewrite N.div_add_l by (apply N.pow_nonzero; discriminate).
  rewrite pow16_step.
  rewrite (N.mul_comm 16), N.mul_assoc, N.add_comm.
  now rewrite N.Div0.mod_add.
Qed.

(** The digits of packed bits are the digits of its groups of four. *)
Lemma hex_digits_of_pack (k : nat) :
  forall bits, List.length bits = 4 * k ->
               hex_digits_of k (pack_msb_first bits) = hex_of_bits bits.
Proof.
  induction k as [|k IH]; intros bits Hlen.
  - destruct bits; [reflexivity | discriminate Hlen].
  - destruct bits as [|b3 [|b2 [|b1 [|b0 rest]]]]; try (simpl in Hlen; lia).
    assert (Hrest : List.length rest = 4 * k) by (simpl in Hlen; lia).
    rewrite hex_digits_of_succ, (pack_four b3 b2 b1 b0 rest k Hrest).
    assert (Hv : (nibble_value b3 b2 b1 b0 < 16)%N)
      by (destruct b3, b2, b1, b0; reflexivity).
    assert (Hr : (pack_msb_first rest < 16 ^ N.of_nat k)%N).
    { rewrite <- pow2_4k, <- Hrest. apply pack_msb_first_bound. }
    rewrite (nibble_top _ _ k Hv Hr). cbn [hex_of_bits]. f_equal.
    rewrite <- (IH rest Hrest). unfold hex_digits_of. f_equal.
    apply map_ext_in. intros j Hj. rewrite <- in_rev in Hj. apply in_seq in Hj.
    rewrite nibble_below by lia. reflexivity.
Qed.

(** One digit against four bits. *)
Lemma nibble_differences (a3 a2 a1 a0 b3 b2 b1 b0 : bool) :
  let chars :=
    if Ascii.eqb (hex_digit (nibble_value a3 a2 a1 a0))
                 (hex_digit (nibble_value b3 b2 b1 b0))
    then 0 else 1 in
  let bits := bit_differences [a3; a2; a1; a0] [b3; b2; b1; b0] in
  chars <= bits <= 4 * chars.
Proof.
  destruct a3, a2, a1, a0, b3, b2, b1, b0; vm_compute;
    split; repeat constructor.
Qed.

Lemma bit_differences_four (a3 a2 a1 a0 b3 b2 b1 b0 : bool) (a b : list bool) :
  bit_differences (a3 :: a2 :: a1 :: a0 :: a) (b3 :: b2 :: b1 :: b0 :: b)
  = bit_differences [a3; a2; a1; a0] [b3; b2; b1; b0] + bit_differences a b.
Proof. cbn [bit_differences]. lia. Qed.

Lemma hex_of_bits_length (k : nat) :
  forall bits, List.length bits = 4 * k -> String.length (hex_of_bits bits) = k.
Proof.
  induction k as [|k IH]; intros bits Hlen.
  - destruct bits; [reflexivity | discriminate Hlen].
  - destruct bits as [|b3 [|b2 [|b1 [|b0 rest]]]]; try (simpl in Hlen; lia).
    cbn [hex_of_bits String.length]. f_equal. apply IH. simpl in Hlen. lia.
Qed.

Lemma digit_mismatches_vs_bits (k : nat) :
  forall a b,
    List.length a = 4 * k -> List.length b = 4 * k ->
    mismatches (hex_of_bits a) (hex_of_bits b) <= bit_differences a b
    /\ bit_differences a b <= 4 * mismatches (hex_of_bits a) (hex_of_bits b).
Proof.
  induction k as [|k IH]; intros a b Ha Hb.
  - destruct a, b; try discriminate. vm_compute. split; constructor.
  - destruct a as [|a3 [|a2 [|a1 [|a0 a]]]]; try (simpl in Ha; lia).
    destruct b as [|b3 [|b2 [|b1 [|b0 b]]]]; try (simpl in Hb; lia).
    cbn [hex_of_bits]. rewrite mismatches_cons, bit_differences_four.
    pose proof (nibble_differences a3 a2 a1 a0 b3 b2 b1 b0) as Hn.
    cbv zeta in Hn.
    assert (Ha' : List.length a = 4 * k) by (simpl in Ha; lia).
    assert (Hb' : List.length b = 4 * k) by (simpl in Hb; lia).
    specialize (IH a b Ha' Hb'). lia.
Qed.

(** X23: the distance between the hashes of two grids of 64 pixels counts
    the hexadecimal digits that differ, each standing for four bits: it is
    at most the number of bits in which the two hashes differ, and at
    least a quarter of it. *)
Theorem digit_distance_vs_bit_distance (p q : list Z) (hp hq : string) :
  List.length p = 64 -> List.length q = 64 ->
  hash_of_pixels p = Some hp -> hash_of_pixels q = Some hq ->
  exists d,
    calculate_hamming_distance hp hq = Finite d /\
    d <= bit_differences (above_mean p) (above_mean q) /\
    bit_differences (above_mean p) (above_mean q) <= 4 * d.
Proof.
  intros Hp Hq Hhp Hhq.
  assert (Hform : forall x, List.length x = 64 ->
            hash_of_pixels x = Some (hex_of_bits (above_mean x))).
  { intros x Hx. rewrite hash_of_pixels_hex16.
    - f_equal. apply (hex_digits_of_pack 16). now rewrite above_mean_length.
    - intros E. rewrite E in Hx. discriminate Hx.
    - lia. }
  rewrite (Hform p Hp) in Hhp. rewrite (Hform q Hq) in Hhq.
  apply some_inj in Hhp, Hhq. subst hp hq.
  assert (Hap : List.length (above_mean p) = 4 * 16)
    by (now rewrite above_mean_length).
  assert (Haq : List.length (above_mean q) = 4 * 16)
    by (now rewrite above_mean_length).
  exists (mismatches (hex_of_bits (above_mean p)) (hex_of_bits (above_mean q))).
  split.
  - apply hamming_equal_length.
    now rewrite (hex_of_bits_length 16 _ Hap), (hex_of_bits_length 16 _ Haq).
  - exact (digit_mismatches_vs_bits 16 _ _ Hap Haq).
Qed.

Lemma digit_distance_vs_bit_distance_witness :
  exists d,
    calculate_hamming_distance "0f0f0f0f0f0f0f0f" "0000000000000000" = Finite d /\
    d <= bit_differences (above_mean half_pixels) (above_mean (repeat 7%Z 64)) /\
    bit_differences (above_mean half_pixels) (above_mean (repeat 7%Z 64)) <= 4 * d.
Proof.
  apply (digit_distance_vs_bit_distance half_pixels (repeat 7%Z 64)
           "0f0f0f0f0f0f0f0f" "0000000000000000"); reflexivity.
Defined.

(** ** Rows without fingerprint *)

Section Raising.

Variables A B : Type.
Variable step : B -> A -> option B.
Variable pure_step : B -> A -> B.


End Raising.












